(** * EnglishVideo: the frame compositor, the preview and the batch worker

    A shallow embedding of [VideoProcessor] from [src/video_editor.py]:
    the numpy arithmetic of [process_preview] (vertical shift, overlay
    clamping, alpha blending), the exception and signal flow of
    [process_preview] and [process_videos], and the path arithmetic of the
    write step.  The video and image libraries (moviepy, OpenCV, the file
    system) are a record of functions, [world]. *)

From Stdlib Require Import ZArith Floats Uint63 Lia Bool Ascii String.
From stdpp Require Import base option list strings pretty.

Local Open Scope Z_scope.

(** ** Python values *)

Module Py.

(** A Python computation either returns or raises; [msg] is [str(e)]. *)
Inductive result (A : Type) : Type :=
| Ok (a : A)
| Raise (msg : string).
Global Arguments Ok {A} a.
Global Arguments Raise {A} msg.

(** [float(z)]; exact for [|z| < 2^53], which covers pixel values,
    frame sizes and list lengths. *)
Definition float_of_Z (z : Z) : float :=
  if z <? 0 then PrimFloat.opp (PrimFloat.of_uint63 (Uint63.of_Z (- z)))
  else PrimFloat.of_uint63 (Uint63.of_Z z).

(** [int(f)] on a finite float: truncation toward zero.  It is also the
    C cast numpy applies when a float64 value is stored in an integer
    array. *)
Definition int_of_float (f : float) : Z :=
  match Prim2SF f with
  | S754_finite s m e =>
      let v := if 0 <=? e then Z.pos m * 2 ^ e else Z.pos m / 2 ^ (- e) in
      if s then - v else v
  | _ => 0
  end.

(** Truthiness of an optional string: [None] and [""] are false. *)
Definition truthy (s : option string) : bool :=
  match s with
  | Some EmptyString | None => false
  | Some _ => true
  end.

End Py.
Import Py.

(** ** numpy arrays of shape (rows, columns, channels) *)

Module Np.

(** A pixel is its list of channel values; an array is a list of rows
    of pixels.  The lengths of the inner axes are read from the first row
    and its first pixel: the list of an array without rows or without
    columns does not record them. *)
Abbreviation pixel := (list Z) (only parsing).
Abbreviation ndarray := (list (list (list Z))) (only parsing).

Definition rows (a : ndarray) : Z := Z.of_nat (length a).
Definition cols (a : ndarray) : Z :=
  match a with
  | [] => 0
  | r :: _ => Z.of_nat (length r)
  end.
Definition chans (a : ndarray) : Z :=
  match a with
  | (p :: _) :: _ => Z.of_nat (length p)
  | _ => 0
  end.

(** The array is rectangular, of shape [(h, w, c)]. *)
Definition has_shape (a : ndarray) (h w c : Z) : Prop :=
  rows a = h ∧
  Forall (λ row, Z.of_nat (length row) = w ∧
                 Forall (λ p : pixel, Z.of_nat (length p) = c) row) a.

Global Instance has_shape_dec a h w c : Decision (has_shape a h w c).
Proof. unfold has_shape. apply _. Defined.

(** [np.zeros((h, w, c), dtype=np.uint8)] *)
Definition zeros (h w c : Z) : ndarray :=
  replicate (Z.to_nat h) (replicate (Z.to_nat w) (replicate (Z.to_nat c) 0)).

(** Where a slice bound [i] lands on an axis of length [n]: negative
    bounds count from the end, and every bound is clipped to [0, n]. *)
Definition slice_index (n i : Z) : Z :=
  if i <? 0 then Z.max 0 (i + n) else Z.min i n.

(** Length of [a[start:stop]] on an axis of length [n]. *)
Definition slice_len (n start stop : Z) : Z :=
  Z.max 0 (slice_index n stop - slice_index n start).

(** A source axis of length [src] can be assigned to a target axis of
    length [tgt] when they agree or the source has length 1. *)
Definition broadcastable (src tgt : Z) : bool :=
  (src =? tgt) || (src =? 1).

(** The source index read for target index [i]. *)
Definition bidx (src i : Z) : Z := if src =? 1 then 0 else i.

(** [a[r, c]], the empty pixel outside the array. *)
Definition at2 (a : ndarray) (r c : Z) : pixel :=
  default [] (row ← a !! Z.to_nat r; row !! Z.to_nat c).

(** [a.shape] of a rectangular array that has a pixel. *)
Definition shape (a : ndarray) : list Z := [rows a; cols a; chans a].

(** An axis of length 1 repeated [n] times; an axis of another length is
    left as it is. *)
Definition stretch {A} (n : Z) (l : list A) : list A :=
  match l with
  | [x] => replicate (Z.to_nat n) x
  | _ => l
  end.

(** The array can be assigned to a target of shape [(n, w, c)]: on every
    axis it has the length of the target or length 1. *)
Definition assignable (a : ndarray) (n w c : Z) : bool :=
  broadcastable (rows a) n
  && forallb (λ row : list pixel,
       broadcastable (Z.of_nat (length row)) w
       && forallb (λ p : pixel, broadcastable (Z.of_nat (length p)) c) row) a.

(** What is stored in the target: [np.broadcast_to(a, (n, w, c))]. *)
Definition broadcast_to (a : ndarray) (n w c : Z) : ndarray :=
  stretch n (map (λ row : list pixel, stretch w (map (stretch c) row)) a).

(** A shape as numpy prints it in its messages: [(8,4,3)]. *)
Definition shape_str (dims : list Z) : string :=
  "(" +:+ String.concat "," (map pretty dims) +:+ ")".

(** [str(e)] of the [ValueError] of a failed assignment. *)
Definition broadcast_error (src tgt : list Z) : string :=
  "could not broadcast input array from shape " +:+ shape_str src
  +:+ " into shape " +:+ shape_str tgt.

(** [str(e)] of the [ValueError] of a failed arithmetic operation. *)
Definition operands_error (a b : list Z) : string :=
  "operands could not be broadcast together with shapes " +:+ shape_str a
  +:+ " " +:+ shape_str b +:+ " ".

End Np.
Import Np.

(** ** The frame compositor: vertical shift *)

(** [process_preview], lines 114-120.  [frame] is the array returned by
    [video_clip.get_frame], of shape [(video_height, video_width, 3)].

    <<
      background = np.zeros((video_height, video_width, 3), dtype=np.uint8)
      offset = min(self.offset, video_height - 10)
      moved_frame = np.zeros_like(background)
      moved_frame[offset:, :] = frame[:video_height-offset, :]
    >>

    [np.zeros] raises [ValueError] for a negative dimension.  The slice
    assignment raises [ValueError] unless the source slice has, on every
    axis, the length of the target slice [(n, video_width, 3)] or
    length 1. *)
Definition moved_frame (frame : ndarray) (video_width video_height self_offset : Z)
  : result ndarray :=
  if (video_height <? 0) || (video_width <? 0)
  then Raise "negative dimensions are not allowed"
  else
    let background := zeros video_height video_width 3 in
    let offset := Z.min self_offset (video_height - 10) in
    let start := slice_index (rows background) offset in
    let src := take (Z.to_nat (slice_index (rows frame) (video_height - offset))) frame in
    let n := rows background - start in
    if assignable src n video_width 3
    then Ok (take (Z.to_nat start) background ++ broadcast_to src n video_width 3)
    else Raise (broadcast_error (shape src) [n; video_width; 3]).

(** The shift contract for a frame of height [H] and width [W]
    and an offset [o]: the outcome is a frame of the same shape whose rows
    [[0, o')] are black and whose rows [[o', H)] are rows [[0, H - o')] of the
    source, with [o' = min o (H - 10)]. *)
Definition shift_contract (frame : ndarray) (W H o : Z) (res : result ndarray) : Prop :=
  let o' := Z.min o (H - 10) in
  ∃ out, res = Ok out ∧ has_shape out H W 3 ∧
    (∀ r, 0 ≤ r < o' → out !! Z.to_nat r = Some (replicate (Z.to_nat W) [0; 0; 0])) ∧
    (∀ r, o' ≤ r < H → out !! Z.to_nat r = frame !! Z.to_nat (r - o')).

(** ** The frame compositor: one overlay *)

(** Lines 137-145 (and 182-190): the placement of a bitmap of [img_w] by
    [img_h] pixels at [(x, y)].

    <<
      x_pos = int(self.header_img1_x)
      y_pos = int(self.header_img1_y)
      img_h, img_w = img1_array.shape[:2]
      if x_pos < 0: x_pos = 0
      if y_pos < 0: y_pos = 0
      if x_pos + img_w > video_width: img_w = video_width - x_pos
      if y_pos + img_h > video_height: img_h = video_height - y_pos
    >> *)
Record placement : Type := Placement {
  x_pos : Z;
  y_pos : Z;
  img_w : Z;
  img_h : Z
}.

Definition clamp_placement (x y w h video_width video_height : Z) : placement :=
  let x_pos := if x <? 0 then 0 else x in
  let y_pos := if y <? 0 then 0 else y in
  let img_w := if x_pos + w >? video_width then video_width - x_pos else w in
  let img_h := if y_pos + h >? video_height then video_height - y_pos else h in
  Placement x_pos y_pos img_w img_h.

(** Storing a value in a [uint8] array. *)
Definition uint8 (v : Z) : Z := v mod 256.

(** Lines 153-158, one channel of one pixel: [alpha = a / 255.0] and
    [bg * (1 - alpha) + fg * alpha] in float64, stored in the [uint8]
    frame. *)
Definition alpha_of (a : Z) : float := (float_of_Z a / 255)%float.

Definition blend (bg fg a : Z) : Z :=
  let alpha := alpha_of a in
  uint8 (int_of_float (float_of_Z bg * (1 - alpha) + float_of_Z fg * alpha)%float).

(** [for c in range(3)]: the three colour channels of a frame pixel [p]
    blended with the bitmap pixel [fgp], whose channel 3 is alpha. *)
Definition blend_pixel (fgp p : pixel) : pixel :=
  imap (λ c b, if (c <? 3)%nat then blend b (nth c fgp 0) (nth 3 fgp 0) else b) p.

(** Line 160: the frame pixel [p] becomes [fgp[:3]].  [composite] writes
    it for bitmap pixels of three values or more; for a shorter pixel the
    index follows numpy's broadcasting of the last axis. *)
Definition opaque_pixel (fgp p : pixel) : pixel :=
  let v := take 3 fgp in
  imap (λ c _, nth (Z.to_nat (bidx (Z.of_nat (length v)) (Z.of_nat c))) v 0) p.

(** The pixels of [f[y:y+h, x:x+w]] replaced by [g r c p], where [(r, c)]
    is the position inside the region and [p] the old pixel. *)
Definition update_region (f : ndarray) (y x h w : Z) (g : Z → Z → pixel → pixel)
  : ndarray :=
  let y0 := slice_index (rows f) y in
  let y1 := slice_index (rows f) (y + h) in
  let x0 := slice_index (cols f) x in
  let x1 := slice_index (cols f) (x + w) in
  imap (λ r row,
    if (y0 <=? Z.of_nat r) && (Z.of_nat r <? y1) then
      imap (λ c p,
        if (x0 <=? Z.of_nat c) && (Z.of_nat c <? x1)
        then g (Z.of_nat r - y0) (Z.of_nat c - x0) p
        else p) row
    else row) f.

(** The bitmap pixel read for position [(r, c)] of the region, under
    numpy's broadcasting. *)
Definition src_pixel (img_resized : list (list (list Z))) (r c : Z) : list Z :=
  at2 img_resized (bidx (rows img_resized) r) (bidx (cols img_resized) c).

(** Lines 153-158: the region blended with a four-channel bitmap. *)
Definition blended (moved img_resized : list (list (list Z))) (pl : placement)
  : list (list (list Z)) :=
  update_region moved (y_pos pl) (x_pos pl) (img_h pl) (img_w pl)
    (λ r c p, blend_pixel (src_pixel img_resized r c) p).

(** Line 160: the region overwritten with [img_resized[:, :, :3]]. *)
Definition overwritten (moved img_resized : list (list (list Z))) (pl : placement)
  : list (list (list Z)) :=
  update_region moved (y_pos pl) (x_pos pl) (img_h pl) (img_w pl)
    (λ r c p, opaque_pixel (src_pixel img_resized r c) p).

Section Overlay.

(** [cv2.resize(img, (w, h))] *)
Variable cv2_resize : ndarray → Z → Z → result ndarray.

(** Lines 147-160: the bitmap is resized to the clamped size and written
    into the frame, blended when it has four channels.

    <<
      if img_w > 0 and img_h > 0:
          img1_resized = cv2.resize(img1_array, (img_w, img_h))
          if img1_resized.shape[2] == 4:
              alpha = img1_resized[:, :, 3] / 255.0
              for c in range(3):
                  moved_frame[y_pos:y_pos+img_h, x_pos:x_pos+img_w, c] = (
                      moved_frame[y_pos:y_pos+img_h, x_pos:x_pos+img_w, c] * (1 - alpha) +
                      img1_resized[:, :, c] * alpha)
          else:
              moved_frame[y_pos:y_pos+img_h, x_pos:x_pos+img_w] = img1_resized[:, :, :3]
    >>

    For a bitmap with one value per pixel [cv2.resize] returns an array
    of two axes; a result with one channel stands for it, and
    [img1_resized.shape[2]] raises [IndexError].  With [(th, tw)] the
    shape of the region and [(rh, rw)] that of the resized bitmap, numpy
    raises [ValueError] before anything is written: in the product
    [moved_frame[...] * (1 - alpha)] when the two shapes cannot be
    broadcast together, and in the assignment when what is assigned
    cannot be broadcast to the region. *)
Definition composite (moved : ndarray) (img_array : ndarray) (pl : placement)
  : result ndarray :=
  if (img_w pl >? 0) && (img_h pl >? 0) then
    match cv2_resize img_array (img_w pl) (img_h pl) with
    | Raise e => Raise e
    | Ok img_resized =>
        let th := slice_len (rows moved) (y_pos pl) (y_pos pl + img_h pl) in
        let tw := slice_len (cols moved) (x_pos pl) (x_pos pl + img_w pl) in
        let rh := rows img_resized in
        let rw := cols img_resized in
        let fits := broadcastable rh th && broadcastable rw tw in
        if chans img_resized =? 1 then Raise "tuple index out of range"
        else if chans img_resized =? 4 then
          if fits then Ok (blended moved img_resized pl)
          else if (broadcastable rh th || broadcastable th rh)
                  && (broadcastable rw tw || broadcastable tw rw)
          then Raise (broadcast_error [if th =? 1 then rh else th;
                                       if tw =? 1 then rw else tw] [th; tw])
          else Raise (operands_error [th; tw] [rh; rw])
        else
          if fits && broadcastable (Z.min (chans img_resized) 3) 3
          then Ok (overwritten moved img_resized pl)
          else Raise (broadcast_error [rh; rw; Z.min (chans img_resized) 3] [th; tw; 3])
    end
  else Ok moved.

End Overlay.

(** The blend formula read over the reals, [out = bg * (1 - a/255) +
    fg * (a/255)], cleared of its denominator. *)
Definition exact_blend (out bg fg a : Z) : Prop :=
  255 * out = bg * (255 - a) + fg * a.

(** Values of a [uint8] array. *)
Definition is_byte (v : Z) : Prop := 0 ≤ v < 256.
Definition bytes (a : list (list (list Z))) : Prop :=
  Forall (Forall (Forall is_byte)) a.

Global Instance bytes_dec a : Decision (bytes a).
Proof. unfold bytes, is_byte. apply _. Defined.

(** Every pixel of the bitmap has alpha value [v] in channel 3. *)
Definition alpha_all (v : Z) (a : list (list (list Z))) : Prop :=
  Forall (Forall (λ p, nth 3 p 0 = v)) a.

(** The placement is drawn and lies in a frame of [W] by [H] pixels. *)
Definition fits_frame (pl : placement) (W H : Z) : Prop :=
  0 < img_w pl ∧ 0 < img_h pl ∧ 0 ≤ x_pos pl ∧ x_pos pl + img_w pl ≤ W
  ∧ 0 ≤ y_pos pl ∧ y_pos pl + img_h pl ≤ H.

(** Position [(r, c)] of the frame lies in the placement rectangle. *)
Definition inside (pl : placement) (r c : Z) : Prop :=
  (y_pos pl ≤ r < y_pos pl + img_h pl) ∧ (x_pos pl ≤ c < x_pos pl + img_w pl).

(** Bilinear interpolation, the default of [cv2.resize], for the
    examples.  Target index [d] of an axis resized from [m] to [n] pixels
    reads the source at [(d + 1/2) * m / n - 1/2], between the pixels [s]
    and [s + 1] with weights [1 - t / (2n)] and [t / (2n)]; the position is
    kept inside the axis.  The weighted mean is computed exactly and
    rounded to the nearest integer. *)
Definition sample (m n d : Z) : Z * Z :=
  let num := (2 * d + 1) * m - n in
  if num <=? 0 then (0, 0)
  else if m - 1 <=? num / (2 * n) then (m - 1, 0)
  else (num / (2 * n), num mod (2 * n)).

Definition resize_linear (img : ndarray) (w h : Z) : result ndarray :=
  Ok (map (λ r,
        let '(sy, ty) := sample (rows img) h r in
        map (λ c,
          let '(sx, tx) := sample (cols img) w c in
          imap (λ k _,
            let v := λ i j, nth k (at2 img (sy + i) (sx + j)) 0 in
            let total := (2 * h - ty) * ((2 * w - tx) * v 0 0 + tx * v 0 1)
                         + ty * ((2 * w - tx) * v 1 0 + tx * v 1 1) in
            (2 * total + 4 * h * w) / (8 * h * w))
            (at2 img sy sx))
          (seqZ 0 w))
        (seqZ 0 h)).

(** ** Paths ([os.path] is [posixpath]) *)

Module Path.

(** [s.rfind(c)], counted from position [i] of the whole string: the
    index of the last occurrence, [-1] when there is none. *)
Fixpoint rfind_from (c : ascii) (s : string) (i : Z) : Z :=
  match s with
  | EmptyString => -1
  | String d t =>
      let r := rfind_from c t (i + 1) in
      if 0 <=? r then r else if Ascii.eqb d c then i else -1
  end.
Definition rfind (c : ascii) (s : string) : Z := rfind_from c s 0.

Definition slen (s : string) : Z := Z.of_nat (String.length s).
(** [s[:k]] and [s[k:]] for [0 <= k]. *)
Definition upto (k : Z) (s : string) : string := substring 0 (Z.to_nat k) s.
Definition from (k : Z) (s : string) : string :=
  substring (Z.to_nat k) (String.length s - Z.to_nat k) s.

Fixpoint all_dots (s : string) : bool :=
  match s with
  | EmptyString => true
  | String d t => Ascii.eqb d "." && all_dots t
  end.

(** [c in s] *)
Fixpoint occurs (c : ascii) (s : string) : bool :=
  match s with
  | EmptyString => false
  | String d t => Ascii.eqb d c || occurs c t
  end.

(** [i = p.rfind('/') + 1; return p[i:]] *)
Definition basename (p : string) : string := from (rfind "/" p + 1) p.

(** [genericpath._splitext(p, '/', None, '.')]: split at the last dot of
    the last component, unless that component has only dots before it. *)
Definition splitext (p : string) : string * string :=
  let sepIndex := rfind "/" p in
  let dotIndex := rfind "." p in
  if (sepIndex <? dotIndex)
     && negb (all_dots (upto (dotIndex - (sepIndex + 1)) (from (sepIndex + 1) p)))
  then (upto dotIndex p, from dotIndex p)
  else (p, EmptyString).

Definition startswith_slash (s : string) : bool :=
  match s with
  | String c _ => Ascii.eqb c "/"
  | EmptyString => false
  end.
Fixpoint endswith_slash (s : string) : bool :=
  match s with
  | EmptyString => false
  | String c EmptyString => Ascii.eqb c "/"
  | String _ t => endswith_slash t
  end.

(** [posixpath.join(a, b)] *)
Definition join (a b : string) : string :=
  if startswith_slash b then b
  else if (slen a =? 0) || endswith_slash a then a +:+ b
  else a +:+ "/" +:+ b.

End Path.
Import Path.

(** ** The collaborators: clips, layers, the write call *)

(** What [VideoFileClip(path)] gives: [size] is [(width, height)]. *)
Record video_clip : Type := {
  size : Z * Z;
  duration : float;
  fps : float;
  get_frame : float → result ndarray
}.

(** What [ImageClip(path)] gives: its size and [get_frame(0)]. *)
Record image_clip : Type := {
  img_size : Z * Z;
  img_frame : ndarray
}.

(** What moviepy's [ImageClip(path)] makes of the decoded image file
    [img]: the alpha channel of a four-channel image goes to [clip.mask],
    and [get_frame] gives the three colour channels. *)
Definition ImageClip_of (img : ndarray) : image_clip :=
  {| img_size := (cols img, rows img);
     img_frame := if chans img =? 4 then map (map (take 3)) img else img |}.

(** The layers handed to [CompositeVideoClip], lines 255-297. *)
Inductive layer : Type :=
| ColorClip (sz : Z * Z) (color : Z * Z * Z) (dur : float)
| MovedClip (clip : video_clip) (pos : Z * Z)
| HeaderImg (img : image_clip) (pos : Z * Z) (dur : float).

(** The arguments of [final_clip.write_videofile], lines 306-316. *)
Record write_call : Type := {
  output_file : string;
  clips : list layer;
  final_size : Z * Z;
  codec : string;
  audio_codec : string;
  temp_audiofile : string;
  remove_temp : bool;
  write_fps : float;
  threads : Z;
  preset : string
}.

Record world : Type := {
  (** [os.path.exists] *)
  path_exists : string → bool;
  (** [VideoFileClip(path)] *)
  VideoFileClip : string → result video_clip;
  (** [ImageClip(path)] *)
  ImageClip : string → result image_clip;
  (** [clip.resize(width=w)] *)
  resize : image_clip → float → result image_clip;
  (** [cv2.resize(img, (w, h))] *)
  cv2_resize : ndarray → Z → Z → result ndarray;
  (** [final_clip.write_videofile(...)]: the file is on disk when it
      returns. *)
  write_videofile : write_call → result unit
}.

(** ** Signals *)

(** The texts sent through [error_occurred] and [processing_finished];
    each constructor is one format string of the source, with its holes. *)
Inductive message : Type :=
| MsgNoVideo                                   (* 没有选择视频文件 *)
| MsgNoOutputDir                               (* 未指定输出目录 *)
| MsgLoaded (name : string)                    (* 已加载视频: {name} *)
| MsgSize (sz : Z * Z)                         (* 视频尺寸: {size} *)
| MsgOpenFailed (e : string)                   (* 无法打开视频文件: {e} *)
| MsgImgLoaded (n : nat) (name : string)       (* 加载图片n成功: {name} *)
| MsgImgGeometry (n : nat) (sz : Z * Z) (scale : float) (w x y : Z)
                                               (* 图片n尺寸: 原始=.., 缩放比例=.., 调整后宽度=.., 位置=(.., ..) *)
| MsgImgError (n : nat) (e : string)           (* 处理图片n时出错: {e} *)
| MsgPreviewError (e : string)                 (* 生成预览时出错: {e} *)
| MsgUserInterrupt                             (* 用户中断处理 *)
| MsgProcessing (k total : Z) (name : string)  (* 处理视频 {idx+1}/{total}: {name} *)
| MsgAddImg (n : nat) (scale : float) (x y : Z)(* 添加图片n: 缩放比例=.., 位置=(.., ..) *)
| MsgAddImgError (n : nat) (e : string)        (* 添加图片n时出错: {e} *)
| MsgWriting (name : string)                   (* 正在写入: {name} *)
| MsgDone (name : string)                      (* 视频处理完成: {name} *)
| MsgItemError (name : string) (e : string)    (* 处理 {name} 时出错: {e} *)
| MsgAllDone (total : Z).                      (* 所有 {total} 个视频处理完成! *)

(** What a run does that its caller can see: the four Qt signals, and the
    output file a returning [write_videofile] leaves on disk. *)
Inductive event : Type :=
| progress_updated (percent : Z)
| processing_finished (msg : message)
| preview_frame_ready (frame : ndarray)
| error_occurred (msg : message)
| file_written (call : write_call).

(** ** Emitting signals and raising *)

Definition M (A : Type) : Type := (list event * result A)%type.

Global Instance M_ret : MRet M := λ A a, ([], Ok a).
Global Instance M_bind : MBind M := λ A B f m,
  match m with
  | (ev, Ok a) => let '(ev', r) := f a in (ev ++ ev', r)
  | (ev, Raise e) => (ev, Raise e)
  end.

Definition emit (e : event) : M unit := ([e], Ok tt).
Definition lift {A} (r : result A) : M A := ([], r).

(** [try: m  except Exception as e: handler(str(e))] *)
Definition try_except {A} (m : M A) (handler : string → M A) : M A :=
  match m with
  | (ev, Raise e) => let '(ev', r) := handler e in (ev ++ ev', r)
  | ok => ok
  end.

(** ** The worker *)

Record VideoProcessor : Type := {
  video_files : list string;
  offset : Z;
  header_img1_path : option string;
  header_img1_x : Z;
  header_img1_y : Z;
  header_img1_scale : float;
  header_img2_path : option string;
  header_img2_x : Z;
  header_img2_y : Z;
  header_img2_scale : float;
  preview_only : bool;
  output_dir : option string
}.

(** Lines 127-129 (and 172-174); the value is not used, but the divisions
    and [int] can raise.

    <<
      scale_factor = original_width / video_width
      target_height = int(original_height / scale_factor * self.header_img1_scale)
    >> *)
Definition target_height (original_width original_height video_width : Z)
    (scale : float) : result Z :=
  if video_width =? 0 then Raise "division by zero"
  else
    let scale_factor := (float_of_Z original_width / float_of_Z video_width)%float in
    if PrimFloat.is_zero scale_factor then Raise "float division by zero"
    else
      let t := (float_of_Z original_height / scale_factor * scale)%float in
      if PrimFloat.is_nan t then Raise "cannot convert float NaN to integer"
      else if PrimFloat.is_infinity t then Raise "cannot convert float infinity to integer"
      else Ok (int_of_float t).

(** [self.header_img1_path and os.path.exists(self.header_img1_path)] *)
Definition present (w : world) (path : option string) : bool :=
  truthy path && path_exists w (default EmptyString path).

Section Worker.

Variable w : world.

(** *** Preview *)

(** The body of the [try] of overlay [n], lines 124-163 (169-208). *)
Definition overlay_body (n : nat) (path : option string) (x y : Z) (scale : float)
    (video_width video_height : Z) (moved : ndarray) : M ndarray :=
  if present w path then
    let path := default EmptyString path in
    header_img ← lift (ImageClip w path);
    _ ← lift (target_height (img_size header_img).1 (img_size header_img).2
                video_width scale);
    header_img ← lift (resize w header_img (float_of_Z video_width * scale)%float);
    let img_array := img_frame header_img in
    let pl := clamp_placement x y (cols img_array) (rows img_array)
                video_width video_height in
    moved' ← lift (composite (cv2_resize w) moved img_array pl);
    emit (error_occurred (MsgImgLoaded n (basename path)));;
    emit (error_occurred
            (MsgImgGeometry n (img_size header_img) scale (img_w pl) (x_pos pl) (y_pos pl)));;
    mret moved'
  else mret moved.

(** The whole [try ... except Exception as e] of overlay [n]: after an
    exception the frame is what it was before the block. *)
Definition overlay_block (n : nat) (path : option string) (x y : Z) (scale : float)
    (video_width video_height : Z) (moved : ndarray) : M ndarray :=
  try_except (overlay_body n path x y scale video_width video_height moved)
    (λ e, emit (error_occurred (MsgImgError n e));; mret moved).

(** [min(1, video_clip.duration / 2)] *)
Definition frame_time (clip : video_clip) : float :=
  let half := (duration clip / 2)%float in
  if (half <? 1)%float then half else 1%float.

(** Lines 107-216, after the clip is open. *)
Definition preview_of_clip (p : VideoProcessor) (clip : video_clip) : M unit :=
  let '(video_width, video_height) := size clip in
  frame ← lift (get_frame clip (frame_time clip));
  moved ← lift (moved_frame frame video_width video_height (offset p));
  moved ← overlay_block 1 (header_img1_path p) (header_img1_x p) (header_img1_y p)
            (header_img1_scale p) video_width video_height moved;
  moved ← overlay_block 2 (header_img2_path p) (header_img2_x p) (header_img2_y p)
            (header_img2_scale p) video_width video_height moved;
  emit (preview_frame_ready moved).

(** [process_preview], lines 88-220: the signals it emits. *)
Definition process_preview (p : VideoProcessor) : list event :=
  match video_files p with
  | [] => [error_occurred MsgNoVideo]
  | video_path :: _ =>
      (try_except
         (match VideoFileClip w video_path with
          | Raise e => emit (error_occurred (MsgOpenFailed e))
          | Ok clip =>
              emit (error_occurred (MsgLoaded (basename video_path)));;
              emit (error_occurred (MsgSize (size clip)));;
              preview_of_clip p clip
          end)
         (λ e, emit (error_occurred (MsgPreviewError e)))).1
  end.

(** *** Export *)

(** [int((idx / total_files) * 100)] *)
Definition progress (idx total_files : Z) : Z :=
  int_of_float (float_of_Z idx / float_of_Z total_files * 100)%float.

(** Lines 267-279 (282-294): one overlay layer appended to [clips]. *)
Definition add_header_img (n : nat) (path : option string) (x y : Z) (scale : float)
    (clip : video_clip) (layers : list layer) : M (list layer) :=
  try_except
    (if present w path then
       let path := default EmptyString path in
       header_img ← lift (ImageClip w path);
       header_img ← lift (resize w header_img (float_of_Z (size clip).1 * scale)%float);
       emit (error_occurred (MsgAddImg n scale x y));;
       mret (layers ++ [HeaderImg header_img (x, y) (duration clip)])
     else mret layers)
    (λ e, emit (error_occurred (MsgAddImgError n e));; mret layers).

(** Lines 299-302. *)
Definition output_path (out_dir video_path : string) : string :=
  let base_name := basename video_path in
  let '(name, ext) := splitext base_name in
  join out_dir (name +:+ "_processed" +:+ ext).

(** Lines 306-316. *)
Definition write_args (out_dir video_path : string) (clip : video_clip)
    (layers : list layer) : write_call :=
  {| output_file := output_path out_dir video_path;
     clips := layers;
     final_size := size clip;
     codec := "libx264";
     audio_codec := "aac";
     temp_audiofile := join out_dir "temp-audio.m4a";
     remove_temp := true;
     write_fps := fps clip;
     threads := 4;
     preset := "medium" |}.

(** The body of the per-item [try], lines 241-322. *)
Definition item_body (p : VideoProcessor) (out_dir : string) (idx total_files : Z)
    (video_path : string) : M unit :=
  emit (progress_updated (progress idx total_files));;
  emit (error_occurred (MsgProcessing (idx + 1) total_files (basename video_path)));;
  clip ← lift (VideoFileClip w video_path);
  emit (error_occurred (MsgSize (size clip)));;
  let background := ColorClip (size clip) (0, 0, 0) (duration clip) in
  let offset := Z.min (offset p) ((size clip).2 - 10) in
  let moved_clip := MovedClip clip (0, offset) in
  layers ← add_header_img 1 (header_img1_path p) (header_img1_x p) (header_img1_y p)
             (header_img1_scale p) clip [background; moved_clip];
  layers ← add_header_img 2 (header_img2_path p) (header_img2_x p) (header_img2_y p)
             (header_img2_scale p) clip layers;
  let call := write_args out_dir video_path clip layers in
  emit (error_occurred (MsgWriting (basename (output_file call))));;
  lift (write_videofile w call);;
  emit (file_written call);;
  emit (error_occurred (MsgDone (basename (output_file call)))).

(** One turn of the loop after the poll: [try: ... except Exception]. *)
Definition process_item (p : VideoProcessor) (out_dir : string) (idx total_files : Z)
    (video_path : string) : list event :=
  (try_except (item_body p out_dir idx total_files video_path)
     (λ e, emit (error_occurred (MsgItemError (basename video_path) e)))).1.

(** [self.stopped()] at the poll before item [idx], when [stop()] is
    called after the worker has made [t] polls ([stop_at = Some t]) or
    never ([None]).  The flag is never cleared. *)
Definition stopped (stop_at : option nat) (idx : nat) : bool :=
  match stop_at with
  | Some t => bool_decide (t ≤ idx)%nat
  | None => false
  end.

(** [for idx, video_path in enumerate(self.video_files)], lines 235-330,
    from item [idx] on. *)
Fixpoint process_loop (p : VideoProcessor) (out_dir : string) (stop_at : option nat)
    (total_files : Z) (idx : nat) (files : list string) : list event :=
  match files with
  | [] => [progress_updated 100; processing_finished (MsgAllDone total_files)]
  | video_path :: rest =>
      if stopped stop_at idx then [error_occurred MsgUserInterrupt]
      else process_item p out_dir (Z.of_nat idx) total_files video_path
           ++ process_loop p out_dir stop_at total_files (S idx) rest
  end.

(** [process_videos], lines 222-334. *)
Definition process_videos (p : VideoProcessor) (stop_at : option nat) : list event :=
  match video_files p with
  | [] => [error_occurred MsgNoVideo]
  | _ :: _ =>
      if truthy (output_dir p) then
        process_loop p (default EmptyString (output_dir p)) stop_at
          (Z.of_nat (length (video_files p))) 0 (video_files p)
      else [error_occurred MsgNoOutputDir]
  end.

(** [run], lines 69-78. *)
Definition run (p : VideoProcessor) (stop_at : option nat) : list event :=
  if preview_only p then process_preview p else process_videos p stop_at.

End Worker.

(** The signals of the items of [files], numbered from [idx], when no
    poll finds the flag set. *)
Fixpoint items_trace (w : world) (p : VideoProcessor) (out_dir : string)
    (total_files : Z) (idx : nat) (files : list string) : list event :=
  match files with
  | [] => []
  | video_path :: rest =>
      process_item w p out_dir (Z.of_nat idx) total_files video_path
      ++ items_trace w p out_dir total_files (S idx) rest
  end.

(** The output files a run left on disk, in order. *)
Definition files_written (evs : list event) : list string :=
  omap (λ e, match e with file_written c => Some (output_file c) | _ => None end) evs.

(** The path is [None], empty, or names no file. *)
Definition missing (w : world) (path : option string) : Prop :=
  path = None ∨ path = Some EmptyString
  ∨ ∃ s, path = Some s ∧ path_exists w s = false.

(** The same job with overlay 1 (overlay 2) absent. *)
Definition without_img1 (p : VideoProcessor) : VideoProcessor :=
  {| video_files := video_files p; offset := offset p;
     header_img1_path := None; header_img1_x := header_img1_x p;
     header_img1_y := header_img1_y p; header_img1_scale := header_img1_scale p;
     header_img2_path := header_img2_path p; header_img2_x := header_img2_x p;
     header_img2_y := header_img2_y p; header_img2_scale := header_img2_scale p;
     preview_only := preview_only p; output_dir := output_dir p |}.
Definition without_img2 (p : VideoProcessor) : VideoProcessor :=
  {| video_files := video_files p; offset := offset p;
     header_img1_path := header_img1_path p; header_img1_x := header_img1_x p;
     header_img1_y := header_img1_y p; header_img1_scale := header_img1_scale p;
     header_img2_path := None; header_img2_x := header_img2_x p;
     header_img2_y := header_img2_y p; header_img2_scale := header_img2_scale p;
     preview_only := preview_only p; output_dir := output_dir p |}.

(** The frame after a [try] block over the frame: what the body
    returned, or the frame before the block when the body raised. *)
Definition surviving (body : M (list (list (list Z)))) (before : list (list (list Z)))
  : list (list (list Z)) :=
  match body.2 with
  | Ok f => f
  | Raise _ => before
  end.

Definition is_log (e : event) : bool :=
  match e with error_occurred _ => true | _ => false end.
(** Computations that emit log lines only. *)
Definition logs_only {A} (m : M A) : Prop := Forall (λ e, is_log e = true) m.1.

(** What one overlay block of the export adds to [clips]: nothing, or one
    image layer at the position given by the job, for the duration of the
    clip. *)
Definition header_layer (x y : Z) (dur : float) (added : list layer) : Prop :=
  added = [] ∨ ∃ img, added = [HeaderImg img (x, y) dur].

(** The layers of the composite of the export, lines 255-297: a black
    background of the size of the clip, the clip at
    [(0, min(offset, H - 10))], and the layers of the two overlays. *)
Definition export_layers (p : VideoProcessor) (clip : video_clip)
    (layers : list layer) : Prop :=
  ∃ added1 added2,
    layers = [ColorClip (size clip) (0, 0, 0) (duration clip);
              MovedClip clip (0, Z.min (offset p) ((size clip).2 - 10))]
             ++ added1 ++ added2
    ∧ header_layer (header_img1_x p) (header_img1_y p) (duration clip) added1
    ∧ header_layer (header_img2_x p) (header_img2_y p) (duration clip) added2.

(** The output files of a run with the codecs they were written with. *)
Definition written_with (evs : list event) : list (string * string * string) :=
  omap (λ e, match e with
             | file_written c => Some (output_file c, codec c, audio_codec c)
             | _ => None
             end) evs.

Definition is_interrupt (e : event) : bool :=
  match e with error_occurred MsgUserInterrupt => true | _ => false end.
Definition is_finished (e : event) : bool :=
  match e with processing_finished _ => true | _ => false end.
Definition is_preview (e : event) : bool :=
  match e with preview_frame_ready _ => true | _ => false end.

(** ** A small world for examples *)

Module Demo.

(** A frame whose pixel at row [r], column [c] is [[r+1; c+1; 7]]. *)
Definition frame (h w : Z) : ndarray :=
  map (λ r, map (λ c, [r + 1; c + 1; 7]) (seqZ 0 w)) (seqZ 0 h).

Definition clip (w h : Z) : video_clip :=
  {| size := (w, h); duration := 4; fps := 25;
     get_frame := λ _, Ok (frame h w) |}.

(** The image files: a 2 by 2 logo without alpha, and a 1 by 2 badge
    whose first pixel is opaque and whose second pixel is transparent. *)
Definition logo_png : ndarray :=
  [[[200; 201; 202]; [210; 211; 212]];
   [[220; 221; 222]; [230; 231; 232]]].
Definition badge_png : ndarray :=
  [[[90; 91; 92; 255]; [100; 101; 102; 0]]].

Definition logo : image_clip := ImageClip_of logo_png.
Definition badge : image_clip := ImageClip_of badge_png.

(** Videos are 4 by 12, except ["small.mp4"] (4 by 8); ["broken.mp4"]
    cannot be opened; ["full.mp4"] cannot be written.  Every clip is 4
    pixels wide and the jobs scale by 0.5, so [resize(width=2.0)] gives
    the 2 pixels wide images back as they are. *)
Definition world : world :=
  {| path_exists := λ p, bool_decide (p ∈ ["logo.png"; "badge.png"; "corrupt.png"]);
     VideoFileClip := λ p,
       if bool_decide (basename p = "broken.mp4") then Raise "moov atom not found"
       else if bool_decide (basename p = "small.mp4") then Ok (clip 4 8)
       else Ok (clip 4 12);
     ImageClip := λ p,
       if bool_decide (p = "logo.png") then Ok logo
       else if bool_decide (p = "badge.png") then Ok badge
       else Raise "cannot identify image file";
     resize := λ img _, Ok img;
     cv2_resize := resize_linear;
     write_videofile := λ c,
       if bool_decide (basename (output_file c) = "full_processed.mp4")
       then Raise "No space left on device" else Ok tt |}.

Definition job (files : list string) (o : Z) (img1 img2 : option string)
    (preview : bool) : VideoProcessor :=
  {| video_files := files; offset := o;
     header_img1_path := img1; header_img1_x := 3; header_img1_y := 0;
     header_img1_scale := 0.5;
     header_img2_path := img2; header_img2_x := 0; header_img2_y := 11;
     header_img2_scale := 0.5;
     preview_only := preview; output_dir := Some "out" |}.

End Demo.

(** ** The window: starting a preview or an export *)

(** [VideoProcessor.__init__], lines 27-67: the arguments become the
    fields. *)
Definition make_processor (files : list string) (o : Z)
    (img1_path : option string) (img1_x img1_y : Z) (img1_scale : float)
    (img2_path : option string) (img2_x img2_y : Z) (img2_scale : float)
    (preview : bool) (out_dir : option string) : VideoProcessor :=
  {| video_files := files; offset := o;
     header_img1_path := img1_path; header_img1_x := img1_x;
     header_img1_y := img1_y; header_img1_scale := img1_scale;
     header_img2_path := img2_path; header_img2_x := img2_x;
     header_img2_y := img2_y; header_img2_scale := img2_scale;
     preview_only := preview; output_dir := out_dir |}.

Module App.

(** The state of [VideoEditorApp] that [generate_preview], [update_preview]
    and [export_videos] read: its attributes and the values of its spin
    boxes. *)
Record VideoEditorApp : Type := {
  video_files : list string;
  header_img1_path : option string;
  header_img2_path : option string;
  output_dir : option string;
  offset_spin : Z;
  img1_x_spin : Z;
  img1_y_spin : Z;
  img1_scale_spin : float;
  img2_x_spin : Z;
  img2_y_spin : Z;
  img2_scale_spin : float
}.

(** The texts of the [QMessageBox.warning] dialogs. *)
Inductive warning : Type :=
| WarnNoVideo                              (* 请先选择视频文件！ *)
| WarnNoOutputDir                          (* 请先选择输出目录！ *)
| WarnImgMissing (n : nat) (path : string). (* 图片n不存在: {path} *)

(** What the three methods do to the window and to the worker. *)
Inductive effect : Type :=
| Warning (text : warning)                 (* QMessageBox.warning(...) *)
| PreviewLabelText                         (* preview_label.setText("正在生成预览...") *)
| ClearPreviewImage                        (* self.preview_image = None *)
| ExportBtnEnabled (b : bool)              (* export_btn.setEnabled(b) *)
| ProgressBarValue (v : Z)                 (* progress_bar.setValue(v) *)
| Start (proc : VideoProcessor)            (* self.processor = VideoProcessor(...); connect; start() *)
| LogPreviewing                            (* self.log("正在生成预览...") *)
| LogExporting (n : nat)                   (* self.log(f"开始处理 {n} 个视频...") *)
| StopProcessor                            (* self.processor.stop() *)
| WaitProcessor.                           (* self.processor.wait() *)

(** [path and not os.path.exists(path)] *)
Definition image_missing (w : world) (path : option string) : bool :=
  truthy path && negb (path_exists w (default EmptyString path)).

(** [generate_preview], lines 768-809. *)
Definition generate_preview (w : world) (app : VideoEditorApp) : list effect :=
  match video_files app with
  | [] => [Warning WarnNoVideo]
  | _ :: _ =>
      if image_missing w (header_img1_path app) then
        [Warning (WarnImgMissing 1 (default EmptyString (header_img1_path app)))]
      else if image_missing w (header_img2_path app) then
        [Warning (WarnImgMissing 2 (default EmptyString (header_img2_path app)))]
      else
        [PreviewLabelText; ClearPreviewImage;
         Start (make_processor (video_files app) (offset_spin app)
                  (header_img1_path app) (img1_x_spin app) (img1_y_spin app)
                  (img1_scale_spin app)
                  (header_img2_path app) (img2_x_spin app) (img2_y_spin app)
                  (img2_scale_spin app) true None);
         LogPreviewing]
  end.

(** [update_preview], lines 811-820; [running] is
    [hasattr(self, 'processor') and self.processor and self.processor.isRunning()]. *)
Definition update_preview (w : world) (app : VideoEditorApp) (running : bool)
  : list effect :=
  (if running then [StopProcessor; WaitProcessor] else [])
  ++ match video_files app with
     | [] => []
     | _ :: _ => generate_preview w app
     end.

(** [export_videos], lines 851-898. *)
Definition export_videos (w : world) (app : VideoEditorApp) : list effect :=
  match video_files app with
  | [] => [Warning WarnNoVideo]
  | _ :: _ =>
      if negb (truthy (output_dir app)) then [Warning WarnNoOutputDir]
      else if image_missing w (header_img1_path app) then
        [Warning (WarnImgMissing 1 (default EmptyString (header_img1_path app)))]
      else if image_missing w (header_img2_path app) then
        [Warning (WarnImgMissing 2 (default EmptyString (header_img2_path app)))]
      else
        [ExportBtnEnabled false; ProgressBarValue 0;
         Start (make_processor (video_files app) (offset_spin app)
                  (header_img1_path app) (img1_x_spin app) (img1_y_spin app)
                  (img1_scale_spin app)
                  (header_img2_path app) (img2_x_spin app) (img2_y_spin app)
                  (img2_scale_spin app) false (output_dir app));
         LogExporting (length (video_files app))]
  end.

End App.

(** The values sent through [progress_updated], in order. *)
Definition progress_values (evs : list event) : list Z :=
  omap (λ e, match e with progress_updated v => Some v | _ => None end) evs.

(** [progress] against integer arithmetic: the exact percentage rounded
    down, or one less. *)
Definition progress_near (total_files idx : Z) : bool :=
  (100 * idx / total_files - 1 <=? progress idx total_files)
  && (progress idx total_files <=? 100 * idx / total_files).

(** The paths handed to the write calls that returned: the output file,
    the temporary audio file, and [remove_temp]. *)
Definition written_paths (evs : list event) : list (string * string * bool) :=
  omap (λ e, match e with
             | file_written c => Some (output_file c, temp_audiofile c, remove_temp c)
             | _ => None
             end) evs.

(** The placement has a position and a size that are not negative. *)
Definition placed (pl : placement) : Prop :=
  0 ≤ x_pos pl ∧ 0 ≤ y_pos pl ∧ 0 ≤ img_w pl ∧ 0 ≤ img_h pl.

(** The rectangles of two placements have no position in common. *)
Definition apart (pl1 pl2 : placement) : Prop :=
  y_pos pl1 + img_h pl1 ≤ y_pos pl2 ∨ y_pos pl2 + img_h pl2 ≤ y_pos pl1
  ∨ x_pos pl1 + img_w pl1 ≤ x_pos pl2 ∨ x_pos pl2 + img_w pl2 ≤ x_pos pl1.

(** * Properties *)

(** ** Arrays *)

Lemma rows_zeros h w c : rows (zeros h w c) = Z.max 0 h.
Proof. unfold rows, zeros. rewrite length_replicate. lia. Qed.

Lemma has_shape_lookup a h w c i row :
  has_shape a h w c → a !! i = Some row →
  Z.of_nat (length row) = w ∧ Forall (λ p : pixel, Z.of_nat (length p) = c) row.
Proof.
  intros [_ Hall] Hi. rewrite Forall_lookup in Hall. exact (Hall i row Hi).
Qed.

Lemma has_shape_zeros h w : 0 ≤ h → 0 ≤ w → has_shape (zeros h w 3) h w 3.
Proof.
  intros Hh Hw. split.
  - rewrite rows_zeros. lia.
  - unfold zeros. apply Forall_replicate. split.
    + rewrite length_replicate. lia.
    + apply Forall_replicate. reflexivity.
Qed.

Lemma slice_index_inside n i : 0 ≤ i ≤ n → slice_index n i = i.
Proof. intros Hi. unfold slice_index. destruct (Z.ltb_spec i 0); lia. Qed.

(** Comparisons on [Z] read as propositions. *)
Ltac zbool :=
  rewrite ?andb_true_iff, ?andb_false_iff, ?orb_true_iff, ?orb_false_iff,
    ?Z.leb_le, ?Z.ltb_lt, ?Z.leb_gt, ?Z.ltb_ge, ?Z.gtb_ltb, ?Z.eqb_eq, ?Z.eqb_neq,
    ?Z.ltb_lt, ?Z.ltb_ge in *.

Lemma slice_index_nonneg n i : 0 ≤ i → slice_index n i = Z.min i n.
Proof. intros Hi. unfold slice_index. destruct (Z.ltb_spec i 0); lia. Qed.

Lemma length_blend_pixel fgp p : length (blend_pixel fgp p) = length p.
Proof. unfold blend_pixel. apply length_imap. Qed.

Lemma length_opaque_pixel fgp p : length (opaque_pixel fgp p) = length p.
Proof. unfold opaque_pixel. apply length_imap. Qed.

(** *** Region updates *)

Section UpdateRegion.

Variables (f : list (list (list Z))) (y x h w : Z) (g : Z → Z → list Z → list Z).

Lemma length_update_region : length (update_region f y x h w g) = length f.
Proof. unfold update_region. apply length_imap. Qed.

Lemma rows_update_region : rows (update_region f y x h w g) = rows f.
Proof. unfold rows. now rewrite length_update_region. Qed.

(** A pixel outside the rectangle [[y, y+h) x [x, x+w)] is not touched. *)
Lemma update_region_outside r c :
  0 ≤ y → 0 ≤ x → 0 ≤ h → 0 ≤ w → 0 ≤ r → 0 ≤ c →
  ¬ ((y ≤ r < y + h) ∧ (x ≤ c < x + w)) →
  at2 (update_region f y x h w g) r c = at2 f r c.
Proof.
  intros Hy Hx Hh Hw Hr Hc Hout. unfold at2, update_region.
  rewrite list_lookup_imap.
  destruct (f !! Z.to_nat r) as [row|] eqn:Hrow; simpl; [|reflexivity].
  apply lookup_lt_Some in Hrow.
  rewrite !slice_index_nonneg by lia.
  destruct (_ && _) eqn:Hin; [|reflexivity].
  rewrite list_lookup_imap.
  destruct (row !! Z.to_nat c) as [p|] eqn:Hp; simpl; [|reflexivity].
  destruct ((_ <=? _) && (_ <? _)) eqn:Hin2 in |- *; [|reflexivity].
  exfalso. apply Hout. zbool. unfold rows in *. lia.
Qed.

(** A pixel inside a rectangle that fits in the frame is [g] of its
    position in the rectangle and its old value. *)
Lemma update_region_inside H W r c :
  has_shape f H W 3 → 0 ≤ y → 0 ≤ x → y + h ≤ H → x + w ≤ W →
  0 ≤ r < h → 0 ≤ c < w →
  at2 (update_region f y x h w g) (y + r) (x + c) = g r c (at2 f (y + r) (x + c)).
Proof.
  intros Hshape Hy Hx HyH HxW Hr Hc. pose proof Hshape as [Hrows Hall].
  unfold at2, update_region. rewrite list_lookup_imap.
  destruct (f !! Z.to_nat (y + r)) as [row|] eqn:Hrow; simpl.
  2:{ apply lookup_ge_None in Hrow. unfold rows in Hrows. lia. }
  destruct (has_shape_lookup _ _ _ _ _ _ Hshape Hrow) as [Hlen _].
  assert (Hcols : cols f = W).
  { destruct f as [|row0 ?]; [discriminate Hrow|].
    apply Forall_cons in Hall as [[Hl _] _]. exact Hl. }
  rewrite Hcols, Hrows. rewrite !slice_index_nonneg by lia.
  destruct (_ && _) eqn:Hin.
  2:{ zbool. lia. }
  rewrite list_lookup_imap.
  destruct (row !! Z.to_nat (x + c)) as [p|] eqn:Hp; simpl.
  2:{ apply lookup_ge_None in Hp. lia. }
  destruct ((_ <=? _) && (_ <? _)) eqn:Hin2 in |- *.
  2:{ zbool. lia. }
  f_equal; lia.
Qed.

(** The shape of the frame is kept when [g] keeps the number of
    channels. *)
Lemma has_shape_update_region H W :
  (∀ r c p, length (g r c p) = length p) →
  has_shape f H W 3 → has_shape (update_region f y x h w g) H W 3.
Proof.
  intros Hg [Hrows Hall]. split; [now rewrite rows_update_region|].
  apply Forall_lookup. intros i row' Hi. unfold update_region in Hi.
  rewrite list_lookup_imap in Hi.
  destruct (f !! i) as [row|] eqn:Hrow; simpl in Hi; [|discriminate Hi].
  injection Hi as <-. rewrite Forall_lookup in Hall.
  destruct (Hall i row Hrow) as [Hlen Hpx].
  destruct (_ && _); [|now split].
  split; [now rewrite length_imap|].
  apply Forall_lookup. intros j p' Hj. rewrite list_lookup_imap in Hj.
  destruct (row !! j) as [p|] eqn:Hp; simpl in Hj; [|discriminate Hj].
  injection Hj as <-. rewrite Forall_lookup in Hpx. specialize (Hpx j p Hp).
  destruct (_ && _); [|exact Hpx]. now rewrite Hg.
Qed.

End UpdateRegion.

(** ** C1: the vertical shift *)

Lemma stretch_same {A} n (l : list A) : Z.of_nat (length l) = n → stretch n l = l.
Proof.
  destruct l as [|x [|y l]]; try reflexivity.
  simpl. intros <-. reflexivity.
Qed.

(** A rectangular array is assignable to a target of its width and
    channels as soon as its rows are, and only its rows are repeated. *)
Lemma assignable_rect a h n w c :
  has_shape a h w c → assignable a n w c = broadcastable (rows a) n.
Proof.
  intros [_ Hall]. unfold assignable.
  replace (forallb _ a) with true; [apply andb_true_r|].
  symmetry. apply forallb_forall. intros row Hin.
  rewrite Forall_forall in Hall. apply list_elem_of_In in Hin.
  destruct (Hall row Hin) as [Hlen Hpx].
  apply andb_true_iff. split.
  - unfold broadcastable. rewrite Hlen, Z.eqb_refl. reflexivity.
  - apply forallb_forall. intros px Hpin. rewrite Forall_forall in Hpx.
    apply list_elem_of_In in Hpin. unfold broadcastable.
    rewrite (Hpx px Hpin), Z.eqb_refl. reflexivity.
Qed.

Lemma broadcast_to_rect a h n w c :
  has_shape a h w c → broadcast_to a n w c = stretch n a.
Proof.
  intros [_ Hall]. unfold broadcast_to. f_equal.
  induction Hall as [|row a' [Hlen Hpx] _ IH]; [reflexivity|].
  simpl. rewrite IH. f_equal.
  replace (map (stretch c) row) with row; [now apply stretch_same|].
  clear Hlen. induction Hpx as [|px row' Hp _ IH']; [reflexivity|].
  simpl. rewrite <- IH'. now rewrite stretch_same.
Qed.

(** The shift of a rectangular frame of the width of the clip: only the
    row counts of source and target are compared. *)
Lemma moved_frame_rect frame h W H o :
  0 ≤ H → 0 ≤ W → has_shape frame h W 3 →
  let o' := Z.min o (H - 10) in
  let start := slice_index H o' in
  let src := take (Z.to_nat (slice_index (rows frame) (H - o'))) frame in
  moved_frame frame W H o
  = if broadcastable (rows src) (H - start)
    then Ok (take (Z.to_nat start) (zeros H W 3) ++ stretch (H - start) src)
    else Raise (broadcast_error (shape src) [H - start; W; 3]).
Proof.
  intros HH HW [_ Hall] o' start src. unfold moved_frame.
  replace ((H <? 0) || (W <? 0)) with false by (symmetry; zbool; lia).
  rewrite rows_zeros, Z.max_r by lia. fold o' start src.
  assert (Hsrc : has_shape src (rows src) W 3).
  { split; [reflexivity|]. apply Forall_take. exact Hall. }
  rewrite (assignable_rect _ _ _ _ _ Hsrc), (broadcast_to_rect _ _ _ _ _ Hsrc).
  reflexivity.
Qed.

(** For a frame at least 10 rows high the shift succeeds: the clamped
    offset lies in [[0, H - 10]], so source and target slices have the same
    [H - o'] rows. *)
Lemma moved_frame_eq frame W H o :
  10 ≤ H → 0 ≤ o → has_shape frame H W 3 →
  let o' := Z.min o (H - 10) in
  moved_frame frame W H o
  = Ok (take (Z.to_nat o') (zeros H W 3) ++ take (Z.to_nat (H - o')) frame).
Proof.
  intros HH Ho Hshape o'. pose proof Hshape as [Hrows Hall].
  assert (HW : 0 ≤ W).
  { destruct frame as [|row ?]; [unfold rows in Hrows; simpl in Hrows; lia|].
    apply Forall_cons in Hall as [[<- _] _]. lia. }
  rewrite (moved_frame_rect frame H W H o) by (assumption || lia). fold o'.
  assert (Ho' : 0 ≤ o' ≤ H - 10) by (unfold o'; lia).
  rewrite Hrows, !slice_index_inside by lia.
  assert (Hlen : rows (take (Z.to_nat (H - o')) frame) = H - o').
  { unfold rows in *. rewrite length_take. lia. }
  unfold broadcastable. rewrite Hlen, Z.eqb_refl. simpl.
  rewrite stretch_same by exact Hlen. reflexivity.
Qed.

(** C1 (amended): for every source frame of height [H ≥ 10] and width [W]
    and every offset [0 ≤ o], with [o' = min o (H - 10)], the shifted frame
    has the shape of the source, its rows [[0, o')] are black and its rows
    [[o', H)] are rows [[0, H - o')] of the source. *)
Theorem vertical_shift frame W H o :
  10 ≤ H → 0 ≤ o → has_shape frame H W 3 →
  shift_contract frame W H o (moved_frame frame W H o).
Proof.
  intros HH Ho Hshape. pose proof Hshape as [Hrows Hall].
  unfold shift_contract. rewrite moved_frame_eq by assumption.
  set (o' := Z.min o (H - 10)).
  assert (Ho' : 0 ≤ o' ≤ H - 10) by (unfold o'; lia).
  assert (HW : 0 ≤ W).
  { destruct frame as [|row ?]; [unfold rows in Hrows; simpl in Hrows; lia|].
    apply Forall_cons in Hall as [[<- _] _]. lia. }
  assert (Hz : length (take (Z.to_nat o') (zeros H W 3)) = Z.to_nat o').
  { rewrite length_take. unfold zeros. rewrite length_replicate. lia. }
  eexists. split; [reflexivity|]. split; [split|split].
  - unfold rows in *. rewrite length_app, Hz, length_take. lia.
  - apply Forall_app. split.
    + apply Forall_take. apply (has_shape_zeros H W); lia.
    + apply Forall_take. exact Hall.
  - intros r Hr. rewrite lookup_app_l by lia.
    rewrite lookup_take_lt by lia. unfold zeros.
    rewrite lookup_replicate_2 by lia. reflexivity.
  - intros r Hr. rewrite lookup_app_r by lia. rewrite Hz.
    rewrite lookup_take_lt by lia. f_equal. lia.
Qed.

Lemma vertical_shift_witness :
  shift_contract (Demo.frame 12 4) 4 12 5 (moved_frame (Demo.frame 12 4) 4 12 5).
Proof.
  apply vertical_shift; [lia | lia |].
  apply (bool_decide_unpack _). vm_compute. exact I.
Defined.

(** C1 as stated fails below 10 rows: with [H = 8] the clamped offset is
    [-2], the target slice has 2 rows and the source slice 8, and numpy
    raises, so no frame is produced. *)
Lemma vertical_shift_short_frame :
  moved_frame (Demo.frame 8 4) 4 8 0
  = Raise "could not broadcast input array from shape (8,4,3) into shape (2,4,3)"
  ∧ ¬ shift_contract (Demo.frame 8 4) 4 8 0 (moved_frame (Demo.frame 8 4) 4 8 0).
Proof.
  split; [reflexivity|].
  intros (out & Hout & _). vm_compute in Hout. discriminate Hout.
Qed.

(** ** C2: clamping of the placement *)

Lemma clamp_placement_spec x y w h W H :
  let pl := clamp_placement x y w h W H in
  x_pos pl = Z.max 0 x ∧ y_pos pl = Z.max 0 y
  ∧ img_w pl = Z.min w (W - x_pos pl) ∧ img_h pl = Z.min h (H - y_pos pl).
Proof.
  unfold clamp_placement; simpl. rewrite !Z.gtb_ltb.
  repeat match goal with
         | |- context [?a <? ?b] => destruct (Z.ltb_spec a b)
         end; lia.
Qed.

Lemma composite_skip cv2_resize moved img pl :
  img_w pl ≤ 0 ∨ img_h pl ≤ 0 → composite cv2_resize moved img pl = Ok moved.
Proof.
  intros Hskip. unfold composite.
  destruct (_ && _) eqn:Hdraw; [|reflexivity]. zbool. lia.
Qed.

(** A returning [composite] either skipped the bitmap or replaced the
    region by its blended or its overwritten version. *)
Lemma composite_Ok_cases cv2_resize moved img pl out :
  composite cv2_resize moved img pl = Ok out →
  out = moved ∨
  (0 < img_w pl ∧ 0 < img_h pl ∧
   ∃ img_resized, cv2_resize img (img_w pl) (img_h pl) = Ok img_resized
     ∧ (out = blended moved img_resized pl ∨ out = overwritten moved img_resized pl)).
Proof.
  unfold composite. destruct (_ && _) eqn:Hdraw.
  2:{ intros [= <-]. now left. }
  zbool. destruct (cv2_resize _ _ _) as [img_resized|e]; [|discriminate].
  intros Hout. right. split; [lia|]. split; [lia|]. exists img_resized.
  split; [reflexivity|].
  repeat match type of Hout with
         | (if ?b then _ else _) = _ => destruct b
         end; try discriminate Hout; injection Hout as <-; auto.
Qed.

(** C2: negative coordinates are clamped to 0, width and height are
    shrunk to what is left of the frame, a drawn rectangle lies inside
    the frame, the composited frame keeps the shape of the frame and
    differs from it only inside the rectangle, and a clamped width or
    height that is not positive leaves the frame as it is, without an
    exception. *)
Theorem overlay_clamping_safe cv2_resize moved img x y W H :
  has_shape moved H W 3 →
  let pl := clamp_placement x y (cols img) (rows img) W H in
  (x_pos pl = Z.max 0 x ∧ y_pos pl = Z.max 0 y)
  ∧ (img_w pl = Z.min (cols img) (W - x_pos pl)
     ∧ img_h pl = Z.min (rows img) (H - y_pos pl))
  ∧ (0 < img_w pl → 0 < img_h pl → fits_frame pl W H)
  ∧ (∀ out, composite cv2_resize moved img pl = Ok out →
       has_shape out H W 3
       ∧ ∀ r c, 0 ≤ r → 0 ≤ c → ¬ inside pl r c → at2 out r c = at2 moved r c)
  ∧ (img_w pl ≤ 0 ∨ img_h pl ≤ 0 → composite cv2_resize moved img pl = Ok moved).
Proof.
  intros Hshape pl.
  destruct (clamp_placement_spec x y (cols img) (rows img) W H)
    as (Hx & Hy & Hw & Hh). fold pl in Hx, Hy, Hw, Hh.
  split; [now split|]. split; [now split|]. split.
  { intros Hpw Hph. unfold fits_frame. lia. }
  split; [|apply composite_skip].
  intros out Hout.
  apply composite_Ok_cases in Hout as [->|(Hpw & Hph & r0 & _ & [->| ->])].
  - now split.
  - split.
    + apply has_shape_update_region; [|exact Hshape].
      intros; apply length_blend_pixel.
    + intros r c Hr Hc Hout. apply update_region_outside; try lia. exact Hout.
  - split.
    + apply has_shape_update_region; [|exact Hshape].
      intros; apply length_opaque_pixel.
    + intros r c Hr Hc Hout. apply update_region_outside; try lia. exact Hout.
Qed.

Lemma overlay_clamping_safe_witness :
  let moved := Demo.frame 3 4 in
  let img := img_frame Demo.logo in
  let pl := clamp_placement 3 (-5) (cols img) (rows img) 4 3 in
  pl = Placement 3 0 1 2
  ∧ fits_frame pl 4 3
  ∧ ∀ out, composite resize_linear moved img pl = Ok out → has_shape out 3 4 3.
Proof.
  intros moved img pl.
  assert (Hshape : has_shape moved 3 4 3).
  { apply (bool_decide_unpack _). vm_compute. exact I. }
  destruct (overlay_clamping_safe resize_linear moved img 3 (-5) 4 3 Hshape)
    as (_ & _ & Hfits & Hout & _).
  split; [reflexivity|]. split.
  - apply Hfits; reflexivity.
  - intros out Hc. exact (proj1 (Hout out Hc)).
Defined.

(** ** C3: the alpha branch and the opaque branch *)

Lemma byte_cases (P : Z → bool) :
  forallb P (seqZ 0 256) = true → ∀ v, is_byte v → P v = true.
Proof.
  intros Hall v Hv. rewrite forallb_forall in Hall. apply Hall.
  apply list_elem_of_In, elem_of_seqZ. unfold is_byte in Hv. lia.
Qed.

(** A property of the float64 value computed from a byte, checked byte
    by byte. *)
Ltac each_byte :=
  let l := eval vm_compute in (seqZ 0 256) in
  change (seqZ 0 256) with l;
  repeat (apply Forall_cons_2; [vm_compute; reflexivity|]); apply Forall_nil_2.

Lemma byte_Forall (P : Z → Prop) : Forall P (seqZ 0 256) → ∀ v, is_byte v → P v.
Proof.
  intros Hall v Hv. rewrite Forall_forall in Hall. apply Hall.
  apply elem_of_seqZ. unfold is_byte in Hv. lia.
Qed.

(** With [alpha = 255 / 255.0] the background term [bg * (1 - alpha)] is
    [0.0] and the sum is [fg] exactly. *)
Lemma background_term_255 bg :
  is_byte bg → (float_of_Z bg * (1 - alpha_of 255))%float = 0%float.
Proof. revert bg. apply byte_Forall. each_byte. Qed.

Lemma blend_alpha_255 bg fg : is_byte bg → is_byte fg → blend bg fg 255 = fg.
Proof.
  intros Hbg Hfg. unfold blend. rewrite (background_term_255 bg Hbg).
  apply Z.eqb_eq.
  apply (byte_cases
           (λ fg, uint8 (int_of_float (0 + float_of_Z fg * alpha_of 255)%float) =? fg));
    [|exact Hfg].
  vm_compute. reflexivity.
Qed.

(** With [alpha = 0.0] the bitmap term [fg * alpha] is [0.0] and the sum
    is [bg] exactly. *)
Lemma bitmap_term_0 fg :
  is_byte fg → (float_of_Z fg * alpha_of 0)%float = 0%float.
Proof. revert fg. apply byte_Forall. each_byte. Qed.

Lemma blend_alpha_0 bg fg : is_byte bg → is_byte fg → blend bg fg 0 = bg.
Proof.
  intros Hbg Hfg. unfold blend. rewrite (bitmap_term_0 fg Hfg).
  apply Z.eqb_eq.
  apply (byte_cases
           (λ bg, uint8 (int_of_float (float_of_Z bg * (1 - alpha_of 0) + 0)%float) =? bg));
    [|exact Hbg].
  vm_compute. reflexivity.
Qed.

(** [alpha = a / 255.0] lies in [[0, 1]] for every byte [a]. *)
Lemma alpha_of_unit a :
  is_byte a → (0 <=? alpha_of a)%float = true ∧ (alpha_of a <=? 1)%float = true.
Proof.
  intros Ha. apply andb_true_iff.
  apply (byte_cases (λ a, (0 <=? alpha_of a)%float && (alpha_of a <=? 1)%float));
    [|exact Ha].
  vm_compute. reflexivity.
Qed.

Lemma bidx_inside n i : 0 ≤ i < n → bidx n i = i.
Proof. intros Hi. unfold bidx. destruct (Z.eqb_spec n 1); lia. Qed.

(** The axis lengths of a non-empty rectangular array. *)
Lemma shape_dims a h w c :
  has_shape a h w c → 0 < h → 0 < w → rows a = h ∧ cols a = w ∧ chans a = c.
Proof.
  intros [Hrows Hall] Hh Hw. split; [exact Hrows|].
  destruct a as [|row a']; [unfold rows in Hrows; simpl in Hrows; lia|].
  apply Forall_cons in Hall as [[Hlen Hpx] _]. split; [exact Hlen|].
  destruct row as [|p row']; [simpl in Hlen; lia|].
  apply Forall_cons in Hpx as [Hp _]. exact Hp.
Qed.

(** A position inside a rectangular array holds a pixel with [c]
    channels. *)
Lemma at2_in_shape a h w c r j :
  has_shape a h w c → 0 ≤ r < h → 0 ≤ j < w →
  ∃ row, a !! Z.to_nat r = Some row ∧ row !! Z.to_nat j = Some (at2 a r j)
         ∧ Z.of_nat (length (at2 a r j)) = c.
Proof.
  intros Hshape Hr Hj. pose proof Hshape as [Hrows Hall].
  destruct (a !! Z.to_nat r) as [row|] eqn:Hrow.
  2:{ apply lookup_ge_None in Hrow. unfold rows in Hrows. lia. }
  destruct (has_shape_lookup _ _ _ _ _ _ Hshape Hrow) as [Hlen Hpx].
  destruct (row !! Z.to_nat j) as [p|] eqn:Hp.
  2:{ apply lookup_ge_None in Hp. lia. }
  exists row. unfold at2. rewrite Hrow. simpl. rewrite Hp. simpl.
  split; [reflexivity|]. split; [reflexivity|].
  rewrite Forall_lookup in Hpx. exact (Hpx _ _ Hp).
Qed.

Lemma src_pixel_inside a h w c r j :
  has_shape a h w c → 0 ≤ r < h → 0 ≤ j < w → src_pixel a r j = at2 a r j.
Proof.
  intros Hshape Hr Hj.
  destruct (shape_dims a h w c Hshape) as (Hrows & Hcols & _); [lia..|].
  unfold src_pixel. rewrite Hrows, Hcols, !bidx_inside by lia. reflexivity.
Qed.

(** When the resized bitmap has the shape of the drawn rectangle,
    [composite] returns: blended for four channels, overwritten for
    three. *)
Lemma composite_drawn cv2_resize moved img pl W H img_resized ch :
  has_shape moved H W 3 → fits_frame pl W H →
  cv2_resize img (img_w pl) (img_h pl) = Ok img_resized →
  has_shape img_resized (img_h pl) (img_w pl) ch →
  (ch = 4 → composite cv2_resize moved img pl = Ok (blended moved img_resized pl))
  ∧ (ch = 3 → composite cv2_resize moved img pl = Ok (overwritten moved img_resized pl)).
Proof.
  intros Hshape (Hw & Hh & Hx & HxW & Hy & HyH) Hres Hrshape.
  destruct (shape_dims _ _ _ _ Hrshape) as (Hrows & Hcols & Hch); [lia..|].
  destruct (shape_dims _ _ _ _ Hshape) as (HrowsM & HcolsM & _); [lia..|].
  unfold composite. rewrite Hres, Hrows, Hcols, Hch, HrowsM, HcolsM.
  replace ((img_w pl >? 0) && (img_h pl >? 0)) with true by (symmetry; zbool; lia).
  unfold slice_len. rewrite !slice_index_nonneg by lia.
  replace (broadcastable (img_h pl) _) with true
    by (symmetry; unfold broadcastable; zbool; lia).
  replace (broadcastable (img_w pl) _) with true
    by (symmetry; unfold broadcastable; zbool; lia).
  split; intros ->; reflexivity.
Qed.

(** The pixels of the region after blending and after overwriting. *)
Lemma blended_pixel moved img_resized pl W H ch r c :
  has_shape moved H W 3 → fits_frame pl W H →
  has_shape img_resized (img_h pl) (img_w pl) ch →
  0 ≤ r < img_h pl → 0 ≤ c < img_w pl →
  at2 (blended moved img_resized pl) (y_pos pl + r) (x_pos pl + c)
  = blend_pixel (at2 img_resized r c) (at2 moved (y_pos pl + r) (x_pos pl + c)).
Proof.
  intros Hshape (Hw & Hh & Hx & HxW & Hy & HyH) Hrshape Hr Hc. unfold blended.
  rewrite (update_region_inside _ _ _ _ _ _ H W) by (assumption || lia).
  now rewrite (src_pixel_inside _ _ _ _ _ _ Hrshape).
Qed.

Lemma overwritten_pixel moved img_resized pl W H ch r c :
  has_shape moved H W 3 → fits_frame pl W H →
  has_shape img_resized (img_h pl) (img_w pl) ch →
  0 ≤ r < img_h pl → 0 ≤ c < img_w pl →
  at2 (overwritten moved img_resized pl) (y_pos pl + r) (x_pos pl + c)
  = opaque_pixel (at2 img_resized r c) (at2 moved (y_pos pl + r) (x_pos pl + c)).
Proof.
  intros Hshape (Hw & Hh & Hx & HxW & Hy & HyH) Hrshape Hr Hc. unfold overwritten.
  rewrite (update_region_inside _ _ _ _ _ _ H W) by (assumption || lia).
  now rewrite (src_pixel_inside _ _ _ _ _ _ Hrshape).
Qed.

(** Overwriting with a three-channel pixel stores that pixel. *)
Lemma opaque_pixel_rgb fgp p :
  length p = 3%nat → (3 ≤ length fgp)%nat → opaque_pixel fgp p = take 3 fgp.
Proof.
  intros Hp Hf.
  destruct p as [|b0 [|b1 [|b2 [|? ?]]]]; try discriminate Hp.
  destruct fgp as [|f0 [|f1 [|f2 fgp']]]; simpl in Hf; try lia.
  reflexivity.
Qed.


Lemma update_region_ext f y x h w g1 g2 H W :
  has_shape f H W 3 → 0 ≤ y → 0 ≤ x → 0 ≤ h → 0 ≤ w → y + h ≤ H → x + w ≤ W →
  (∀ r c, 0 ≤ r < h → 0 ≤ c < w →
     g1 r c (at2 f (y + r) (x + c)) = g2 r c (at2 f (y + r) (x + c))) →
  update_region f y x h w g1 = update_region f y x h w g2.
Proof.
  intros Hshape Hy Hx Hh Hw HyH HxW Hg. unfold update_region.
  apply imap_ext. intros i row Hrow.
  destruct (_ && _) eqn:Hin; [|reflexivity].
  apply imap_ext. intros j p Hp.
  destruct ((_ <=? _) && (_ <? _)) eqn:Hin2 in |- *; [|reflexivity].
  pose proof (lookup_lt_Some _ _ _ Hrow) as Hi.
  pose proof (lookup_lt_Some _ _ _ Hp) as Hj.
  destruct (has_shape_lookup _ _ _ _ _ _ Hshape Hrow) as [Hlen _].
  assert (Hcols : cols f = W).
  { destruct Hshape as [_ Hall]. destruct f as [|row0 ?]; [discriminate Hrow|].
    apply Forall_cons in Hall as [[Hl _] _]. exact Hl. }
  destruct Hshape as [Hrows _]. unfold rows in Hrows.
  rewrite Hcols in *. unfold rows in *. rewrite Hrows in *.
  rewrite !slice_index_nonneg in * by lia. zbool.
  rewrite (Z.min_l y H), (Z.min_l x W) in * by lia.
  assert (Hat : at2 f (y + (Z.of_nat i - y)) (x + (Z.of_nat j - x)) = p).
  { unfold at2. replace (Z.to_nat (y + (Z.of_nat i - y))) with i by lia.
    rewrite Hrow. simpl.
    replace (Z.to_nat (x + (Z.of_nat j - x))) with j by lia.
    rewrite Hp. reflexivity. }
  specialize (Hg (Z.of_nat i - y) (Z.of_nat j - x)).
  rewrite Hat in Hg. apply Hg; lia.
Qed.

Lemma update_region_same f y x h w : update_region f y x h w (λ _ _ p, p) = f.
Proof.
  unfold update_region. apply list_eq. intros i. rewrite list_lookup_imap.
  destruct (f !! i) as [row|]; simpl; [|reflexivity]. f_equal.
  destruct (_ && _); [|reflexivity].
  apply list_eq. intros j. rewrite list_lookup_imap.
  destruct (row !! j) as [p|]; simpl; [|reflexivity].
  now destruct (_ && _).
Qed.

Lemma bytes_at2 a h w c r j :
  has_shape a h w c → bytes a → 0 ≤ r < h → 0 ≤ j < w → Forall is_byte (at2 a r j).
Proof.
  intros Hshape Hb Hr Hj.
  destruct (at2_in_shape a h w c r j Hshape Hr Hj) as (row & Hrow & Hp & _).
  unfold bytes in Hb. rewrite Forall_lookup in Hb. specialize (Hb _ _ Hrow).
  rewrite Forall_lookup in Hb. exact (Hb _ _ Hp).
Qed.

Lemma alpha_at2 v a h w c r j :
  has_shape a h w c → alpha_all v a → 0 ≤ r < h → 0 ≤ j < w →
  nth 3 (at2 a r j) 0 = v.
Proof.
  intros Hshape Ha Hr Hj.
  destruct (at2_in_shape a h w c r j Hshape Hr Hj) as (row & Hrow & Hp & _).
  unfold alpha_all in Ha. rewrite Forall_lookup in Ha. specialize (Ha _ _ Hrow).
  rewrite Forall_lookup in Ha. exact (Ha _ _ Hp).
Qed.

(** A frame pixel and a bitmap pixel with alpha, as their channels. *)
Lemma pixel_channels moved img_resized pl W H r c :
  has_shape moved H W 3 → bytes moved → fits_frame pl W H →
  has_shape img_resized (img_h pl) (img_w pl) 4 → bytes img_resized →
  0 ≤ r < img_h pl → 0 ≤ c < img_w pl →
  ∃ b0 b1 b2 f0 f1 f2 a,
    at2 moved (y_pos pl + r) (x_pos pl + c) = [b0; b1; b2]
    ∧ at2 img_resized r c = [f0; f1; f2; a]
    ∧ Forall is_byte [b0; b1; b2] ∧ Forall is_byte [f0; f1; f2; a].
Proof.
  intros Hshape Hb (Hw & Hh & Hx & HxW & Hy & HyH) Hrshape Hrb Hr Hc.
  destruct (at2_in_shape moved H W 3 (y_pos pl + r) (x_pos pl + c) Hshape)
    as (_ & _ & _ & Hlen); [lia..|].
  destruct (at2_in_shape img_resized _ _ 4 r c Hrshape Hr Hc) as (_ & _ & _ & Hlen').
  assert (Hbp : Forall is_byte (at2 moved (y_pos pl + r) (x_pos pl + c)))
    by (apply (bytes_at2 moved H W 3); (assumption || lia)).
  pose proof (bytes_at2 img_resized _ _ 4 r c Hrshape Hrb Hr Hc) as Hbf.
  destruct (at2 moved _ _) as [|b0 [|b1 [|b2 [|? ?]]]]; simpl in Hlen; try lia.
  destruct (at2 img_resized _ _) as [|f0 [|f1 [|f2 [|a [|? ?]]]]]; simpl in Hlen'; try lia.
  exists b0, b1, b2, f0, f1, f2, a. auto.
Qed.

Lemma blend_pixel_channels f0 f1 f2 a b0 b1 b2 :
  blend_pixel [f0; f1; f2; a] [b0; b1; b2]
  = [blend b0 f0 a; blend b1 f1 a; blend b2 f2 a].
Proof. reflexivity. Qed.

(** The two branches of lines 152-160.  For an array of four channels
    every colour channel inside the rectangle is
    [bg * (1 - alpha) + fg * alpha] evaluated in double precision and
    truncated toward zero into the [uint8] frame, with [alpha = a / 255.0]
    in [[0, 1]]; with alpha 255 at every pixel the result is the opaque
    overwrite of the rectangle, with alpha 0 at every pixel the frame is
    unchanged.  An array of three channels overwrites the rectangle. *)
Lemma alpha_compositing cv2_resize moved img pl W H img_resized :
  has_shape moved H W 3 → bytes moved → fits_frame pl W H →
  cv2_resize img (img_w pl) (img_h pl) = Ok img_resized → bytes img_resized →
  (has_shape img_resized (img_h pl) (img_w pl) 4 →
     composite cv2_resize moved img pl = Ok (blended moved img_resized pl)
     ∧ (∀ r c k, 0 ≤ r < img_h pl → 0 ≤ c < img_w pl → (k < 3)%nat →
          let fg := at2 img_resized r c in
          let bg := at2 moved (y_pos pl + r) (x_pos pl + c) in
          let alpha := alpha_of (nth 3 fg 0) in
          nth k (at2 (blended moved img_resized pl) (y_pos pl + r) (x_pos pl + c)) 0
          = uint8 (int_of_float (float_of_Z (nth k bg 0%Z) * (1 - alpha)
                                 + float_of_Z (nth k fg 0%Z) * alpha)%float)
          ∧ (0 <=? alpha)%float = true ∧ (alpha <=? 1)%float = true)
     ∧ (alpha_all 255 img_resized →
          blended moved img_resized pl = overwritten moved img_resized pl)
     ∧ (alpha_all 0 img_resized → blended moved img_resized pl = moved))
  ∧ (has_shape img_resized (img_h pl) (img_w pl) 3 →
     composite cv2_resize moved img pl = Ok (overwritten moved img_resized pl)
     ∧ ∀ r c, 0 ≤ r < img_h pl → 0 ≤ c < img_w pl →
         at2 (overwritten moved img_resized pl) (y_pos pl + r) (x_pos pl + c)
         = at2 img_resized r c).
Proof.
  intros Hshape Hb Hfits Hres Hrb. pose proof Hfits as (Hw & Hh & Hx & HxW & Hy & HyH).
  split.
  - intros Hr4.
    split; [exact (proj1 (composite_drawn _ _ _ _ _ _ _ _ Hshape Hfits Hres Hr4) eq_refl)|].
    split; [|split].
    + intros r c k Hr Hc Hk fg bg alpha. subst fg bg alpha.
      rewrite (blended_pixel _ _ _ W H 4) by assumption.
      destruct (pixel_channels moved img_resized pl W H r c)
        as (b0 & b1 & b2 & f0 & f1 & f2 & a & -> & -> & _ & Hfb); try assumption.
      rewrite blend_pixel_channels. split.
      * destruct k as [|[|[|k]]]; [reflexivity..|lia].
      * apply alpha_of_unit. simpl.
        apply Forall_cons in Hfb as [_ Hfb]. apply Forall_cons in Hfb as [_ Hfb].
        apply Forall_cons in Hfb as [_ Hfb]. apply Forall_cons in Hfb as [Ha _].
        exact Ha.
    + intros Ha. unfold blended, overwritten.
      apply (update_region_ext _ _ _ _ _ _ _ H W); try (assumption || lia).
      intros r c Hr Hc. rewrite (src_pixel_inside _ _ _ _ _ _ Hr4 Hr Hc).
      destruct (pixel_channels moved img_resized pl W H r c)
        as (b0 & b1 & b2 & f0 & f1 & f2 & a & Hbg & Hfg & Hbb & Hfb); try assumption.
      pose proof (alpha_at2 255 _ _ _ _ r c Hr4 Ha Hr Hc) as Ha'.
      rewrite Hbg, Hfg in *. simpl in Ha'. subst a.
      rewrite blend_pixel_channels.
      apply Forall_cons in Hbb as [? Hbb]. apply Forall_cons in Hbb as [? Hbb].
      apply Forall_cons in Hbb as [? _].
      apply Forall_cons in Hfb as [? Hfb]. apply Forall_cons in Hfb as [? Hfb].
      apply Forall_cons in Hfb as [? _].
      rewrite !blend_alpha_255 by assumption. reflexivity.
    + intros Ha. unfold blended.
      rewrite <- (update_region_same moved (y_pos pl) (x_pos pl) (img_h pl) (img_w pl)) at 2.
      apply (update_region_ext _ _ _ _ _ _ _ H W); try (assumption || lia).
      intros r c Hr Hc. rewrite (src_pixel_inside _ _ _ _ _ _ Hr4 Hr Hc).
      destruct (pixel_channels moved img_resized pl W H r c)
        as (b0 & b1 & b2 & f0 & f1 & f2 & a & Hbg & Hfg & Hbb & Hfb); try assumption.
      pose proof (alpha_at2 0 _ _ _ _ r c Hr4 Ha Hr Hc) as Ha'.
      rewrite Hbg, Hfg in *. simpl in Ha'. subst a.
      rewrite blend_pixel_channels.
      apply Forall_cons in Hbb as [? Hbb]. apply Forall_cons in Hbb as [? Hbb].
      apply Forall_cons in Hbb as [? _].
      apply Forall_cons in Hfb as [? Hfb]. apply Forall_cons in Hfb as [? Hfb].
      apply Forall_cons in Hfb as [? _].
      rewrite !blend_alpha_0 by assumption. reflexivity.
  - intros Hr3.
    split; [exact (proj2 (composite_drawn _ _ _ _ _ _ _ _ Hshape Hfits Hres Hr3) eq_refl)|].
    intros r c Hr Hc. rewrite (overwritten_pixel _ _ _ W H 3) by assumption.
    destruct (at2_in_shape moved H W 3 (y_pos pl + r) (x_pos pl + c) Hshape)
      as (_ & _ & _ & Hlen); [lia..|].
    destruct (at2_in_shape img_resized _ _ 3 r c Hr3 Hr Hc) as (_ & _ & _ & Hlen').
    rewrite opaque_pixel_rgb by lia. apply take_ge. lia.
Qed.


Lemma alpha_compositing_witness :
  let moved := Demo.frame 3 4 in
  let img := Demo.badge_png in
  let pl := Placement 0 1 2 1 in
  composite resize_linear moved img pl = Ok (blended moved img pl)
  ∧ blended moved img pl
    = [[[1; 1; 7]; [1; 2; 7]; [1; 3; 7]; [1; 4; 7]];
       [[90; 91; 92]; [2; 2; 7]; [2; 3; 7]; [2; 4; 7]];
       [[3; 1; 7]; [3; 2; 7]; [3; 3; 7]; [3; 4; 7]]].
Proof.
  intros moved img pl.
  assert (Hshape : has_shape moved 3 4 3)
    by (apply (bool_decide_unpack _); vm_compute; exact I).
  assert (Hb : bytes moved) by (apply (bool_decide_unpack _); vm_compute; exact I).
  assert (Hfits : fits_frame pl 4 3) by (unfold fits_frame; simpl; lia).
  assert (Hres : resize_linear img (img_w pl) (img_h pl) = Ok img) by reflexivity.
  assert (Hrb : bytes img) by (apply (bool_decide_unpack _); vm_compute; exact I).
  assert (Hr4 : has_shape img (img_h pl) (img_w pl) 4)
    by (apply (bool_decide_unpack _); vm_compute; exact I).
  split.
  - exact (proj1 (proj1 (alpha_compositing resize_linear moved img pl 4 3 img
                           Hshape Hb Hfits Hres Hrb) Hr4)).
  - vm_compute. reflexivity.
Defined.

(** In the alpha branch the stored channel is an integer, so it is not
    the value of [bg * (1 - alpha) + fg * alpha].  With background
    [(10, 20, 30)], bitmap pixel [(11, 21, 32)] and alpha 128 the formula
    gives about [(10.5, 20.5, 31.004)] and the frame holds
    [(10, 20, 31)]. *)
Lemma alpha_blend_is_truncated :
  composite resize_linear [[[10; 20; 30]]] [[[11; 21; 32; 128]]]
    (clamp_placement 0 0 1 1 1 1) = Ok [[[10; 20; 31]]]
  ∧ ¬ exact_blend 10 10 11 128
  ∧ ¬ exact_blend 20 20 21 128
  ∧ ¬ exact_blend 31 30 32 128.
Proof.
  split; [vm_compute; reflexivity|].
  unfold exact_blend. repeat split; lia.
Qed.

(** The truncation is of the float64 value, not of the exact one:
    blending colour 3 with colour 3 at alpha 5 gives
    [2.9999999999999996], stored as 2. *)
Example blend_same_colour_darkens : blend 3 3 5 = 2.
Proof. vm_compute. reflexivity. Qed.

(** The array of an [ImageClip] never has four channels, so an overlay
    read from a file does not reach the alpha branch. *)
Lemma ImageClip_of_no_alpha img : chans (img_frame (ImageClip_of img)) ≠ 4.
Proof.
  unfold ImageClip_of. simpl.
  destruct (Z.eqb_spec (chans img) 4) as [H4|H4]; [|exact H4].
  destruct img as [|[|px row] img']; try discriminate H4.
  unfold chans in *. simpl. rewrite length_take. lia.
Qed.

(** C3: an overlay file with an alpha channel is not blended.  The badge
    file has four channels and its second pixel has alpha 0, but
    [ImageClip] keeps the three colour channels only, so line 152 takes
    the opaque branch: the preview frame holds the colour of the
    transparent pixel, [(100, 101, 102)], where the blend formula with
    alpha 0 leaves the frame pixel [(11, 2, 7)]. *)
Theorem rgba_overlay_is_written_opaquely :
  let p := Demo.job ["a.mp4"] 1 None (Some "badge.png") true in
  let moved := take 1 (zeros 12 4 3) ++ take 11 (Demo.frame 12 4) in
  let out := overwritten moved (img_frame Demo.badge) (Placement 0 11 2 1) in
  chans Demo.badge_png = 4
  ∧ at2 Demo.badge_png 0 1 = [100; 101; 102; 0]
  ∧ ImageClip Demo.world "badge.png" = Ok (ImageClip_of Demo.badge_png)
  ∧ img_frame (ImageClip_of Demo.badge_png) = [[[90; 91; 92]; [100; 101; 102]]]
  ∧ last (process_preview Demo.world p) = Some (preview_frame_ready out)
  ∧ at2 moved 11 1 = [11; 2; 7]
  ∧ at2 out 11 1 = [100; 101; 102]
  ∧ ¬ exact_blend 100 11 100 0.
Proof.
  intros p moved out.
  repeat (split; [vm_compute; reflexivity|]).
  unfold exact_blend. lia.
Qed.

(** ** C9: a clamped overlay is squashed *)

(** C9: when the rectangle is shrunk at the right or bottom edge, what is
    composited is [cv2.resize] of the whole bitmap to the clamped size:
    the rectangle shows the pixels of that resized bitmap (blended when it
    has four channels), not a crop of the bitmap. *)
Theorem clamped_overlay_is_squashed cv2_resize moved img x y W H img_resized ch :
  has_shape moved H W 3 →
  0 ≤ x < W → 0 ≤ y < H → 0 < cols img → 0 < rows img →
  W < x + cols img ∨ H < y + rows img →
  let pl := clamp_placement x y (cols img) (rows img) W H in
  cv2_resize img (img_w pl) (img_h pl) = Ok img_resized →
  has_shape img_resized (img_h pl) (img_w pl) ch →
  (img_w pl = Z.min (cols img) (W - x) ∧ img_h pl = Z.min (rows img) (H - y)
   ∧ (img_w pl < cols img ∨ img_h pl < rows img))
  ∧ (ch = 3 →
     composite cv2_resize moved img pl = Ok (overwritten moved img_resized pl)
     ∧ ∀ r c, 0 ≤ r < img_h pl → 0 ≤ c < img_w pl →
         at2 (overwritten moved img_resized pl) (y + r) (x + c) = at2 img_resized r c)
  ∧ (ch = 4 →
     composite cv2_resize moved img pl = Ok (blended moved img_resized pl)
     ∧ ∀ r c, 0 ≤ r < img_h pl → 0 ≤ c < img_w pl →
         at2 (blended moved img_resized pl) (y + r) (x + c)
         = blend_pixel (at2 img_resized r c) (at2 moved (y + r) (x + c))).
Proof.
  intros Hshape Hx Hy Hcols Hrows Hshrunk pl Hres Hrshape.
  destruct (clamp_placement_spec x y (cols img) (rows img) W H)
    as (Hxp & Hyp & Hw & Hh). fold pl in Hxp, Hyp, Hw, Hh.
  rewrite Z.max_r in Hxp, Hyp by lia.
  assert (Hfits : fits_frame pl W H) by (unfold fits_frame; lia).
  rewrite Hxp in Hw. rewrite Hyp in Hh.
  split; [lia|]. split.
  - intros ->.
    split; [exact (proj2 (composite_drawn _ _ _ _ _ _ _ _ Hshape Hfits Hres Hrshape) eq_refl)|].
    intros r c Hr Hc. rewrite <- Hxp, <- Hyp.
    rewrite (overwritten_pixel _ _ _ W H 3) by assumption.
    destruct (at2_in_shape moved H W 3 (y_pos pl + r) (x_pos pl + c) Hshape)
      as (_ & _ & _ & Hlen); [lia..|].
    destruct (at2_in_shape img_resized _ _ 3 r c Hrshape Hr Hc) as (_ & _ & _ & Hlen').
    rewrite opaque_pixel_rgb by lia. apply take_ge. lia.
  - intros ->.
    split; [exact (proj1 (composite_drawn _ _ _ _ _ _ _ _ Hshape Hfits Hres Hrshape) eq_refl)|].
    intros r c Hr Hc. rewrite <- Hxp, <- Hyp.
    now rewrite (blended_pixel _ _ _ W H 4) by assumption.
Qed.

(** A bitmap four pixels wide placed two pixels from the right edge: the
    two columns drawn are the means of columns 0 and 1 and of columns 2
    and 3 of the bitmap (bilinear squash), where a crop would show columns
    0 and 1. *)
Lemma clamped_overlay_is_squashed_witness :
  let moved := Demo.frame 3 4 in
  let img := [[[50; 50; 50]; [60; 60; 60]; [70; 70; 70]; [80; 80; 80]]] in
  let pl := clamp_placement 2 1 (cols img) (rows img) 4 3 in
  pl = Placement 2 1 2 1
  ∧ composite resize_linear moved img pl
    = Ok [[[1; 1; 7]; [1; 2; 7]; [1; 3; 7]; [1; 4; 7]];
          [[2; 1; 7]; [2; 2; 7]; [55; 55; 55]; [75; 75; 75]];
          [[3; 1; 7]; [3; 2; 7]; [3; 3; 7]; [3; 4; 7]]].
Proof.
  intros moved img pl.
  assert (Hshape : has_shape moved 3 4 3)
    by (apply (bool_decide_unpack _); vm_compute; exact I).
  assert (Hres : resize_linear img (img_w pl) (img_h pl)
                 = Ok [[[55; 55; 55]; [75; 75; 75]]]) by (vm_compute; reflexivity).
  assert (Hrshape : has_shape [[[55; 55; 55]; [75; 75; 75]]] (img_h pl) (img_w pl) 3)
    by (apply (bool_decide_unpack _); vm_compute; exact I).
  split; [reflexivity|].
  assert (Hx : 0 ≤ 2 < 4) by lia.
  assert (Hy : 0 ≤ 1 < 3) by lia.
  assert (Hcols : 0 < cols img) by reflexivity.
  assert (Hrows : 0 < rows img) by reflexivity.
  assert (Hshrunk : 4 < 2 + cols img ∨ 3 < 1 + rows img) by (left; reflexivity).
  destruct (clamped_overlay_is_squashed resize_linear moved img 2 1 4 3
              [[[55; 55; 55]; [75; 75; 75]]] 3
              Hshape Hx Hy Hcols Hrows Hshrunk Hres Hrshape) as (_ & Hrgb & _).
  etransitivity; [exact (proj1 (Hrgb eq_refl))|]. vm_compute. reflexivity.
Defined.


(** ** The preview: C4 and C10 *)

(** Unfolding the signal monad. *)
Ltac run_M := unfold mbind, M_bind, mret, M_ret, lift, emit, try_except; simpl.

Lemma missing_not_present w path : missing w path → present w path = false.
Proof.
  unfold present. intros [->|[->|(s & -> & Hs)]]; [reflexivity..|].
  simpl. rewrite Hs. apply andb_false_r.
Qed.

Lemma overlay_block_missing w n path x y scale W H moved :
  missing w path → overlay_block w n path x y scale W H moved = ([], Ok moved).
Proof.
  intros Hm. unfold overlay_block, overlay_body.
  rewrite (missing_not_present _ _ Hm). reflexivity.
Qed.

Lemma logs_only_bind {A B} (m : M A) (f : A → M B) :
  logs_only m → (∀ a, logs_only (f a)) → logs_only (m ≫= f).
Proof.
  unfold logs_only. intros Hm Hf. destruct m as [evs [a|e]]; run_M; [|exact Hm].
  specialize (Hf a). destruct (f a) as [evs' r]. simpl in *.
  apply Forall_app. now split.
Qed.

Lemma logs_only_lift {A} (r : result A) : logs_only (lift r).
Proof. constructor. Qed.

Lemma logs_only_ret {A} (a : A) : logs_only (mret a).
Proof. constructor. Qed.

Lemma logs_only_emit msg : logs_only (emit (error_occurred msg)).
Proof. repeat constructor. Qed.

Lemma logs_only_try {A} (m : M A) (handler : string → M A) :
  logs_only m → (∀ e, logs_only (handler e)) → logs_only (try_except m handler).
Proof.
  unfold logs_only. intros Hm Hh. destruct m as [evs [a|e]]; run_M; [exact Hm|].
  specialize (Hh e). destruct (handler e) as [evs' r]. simpl in *.
  apply Forall_app. now split.
Qed.

(** Repeated use of the lemmas above. *)
Ltac logs_only_tac :=
  repeat first
    [ apply logs_only_lift | apply logs_only_ret | apply logs_only_emit
    | apply logs_only_bind; [|intros ?]
    | apply logs_only_try; [|intros ?] ].

Lemma surviving_missing w n path x y scale W H moved :
  missing w path → surviving (overlay_body w n path x y scale W H moved) moved = moved.
Proof.
  intros Hm. unfold surviving, overlay_body.
  now rewrite (missing_not_present _ _ Hm).
Qed.

(** The body of an overlay block emits log lines only. *)
Lemma overlay_body_logs w n path x y scale W H moved :
  Forall (λ e, is_log e = true) (overlay_body w n path x y scale W H moved).1.
Proof.
  change (logs_only (overlay_body w n path x y scale W H moved)).
  unfold overlay_body. destruct (present w path); logs_only_tac.
Qed.

(** An overlay block never raises: it returns the surviving frame, and
    reports the exception of its body, if any, as its last log line. *)
Lemma overlay_block_spec w n path x y scale W H moved :
  let body := overlay_body w n path x y scale W H moved in
  overlay_block w n path x y scale W H moved
  = (body.1 ++ match body.2 with
               | Raise e => [error_occurred (MsgImgError n e)]
               | Ok _ => []
               end,
     Ok (surviving body moved)).
Proof.
  intros body. unfold overlay_block, surviving. fold body.
  destruct body as [evs [f|e]]; run_M; [now rewrite app_nil_r|reflexivity].
Qed.

Lemma overlay_block_logs w n path x y scale W H moved :
  Forall (λ e, is_log e = true) (overlay_block w n path x y scale W H moved).1.
Proof.
  rewrite overlay_block_spec. simpl. apply Forall_app. split.
  - apply overlay_body_logs.
  - case_match; repeat constructor.
Qed.

Lemma bind_lift_ok {A B} (a : A) (f : A → M B) : lift (Ok a) ≫= f = f a.
Proof. run_M. now destruct (f a). Qed.

Lemma bind_lift_raise {A B} e (f : A → M B) : lift (Raise e) ≫= f = ([], Raise e).
Proof. reflexivity. Qed.

Lemma bind_ret {A B} (a : A) (f : A → M B) : ([], Ok a) ≫= f = f a.
Proof. run_M. now destruct (f a). Qed.

Lemma bind_ok {A B} evs (a : A) (f : A → M B) :
  (evs, Ok a) ≫= f = (evs ++ (f a).1, (f a).2).
Proof. run_M. now destruct (f a). Qed.

(** [process_preview] by cases on the file list and on opening the
    clip. *)
Lemma process_preview_unfold w p :
  process_preview w p
  = match video_files p with
    | [] => [error_occurred MsgNoVideo]
    | video_path :: _ =>
        match VideoFileClip w video_path with
        | Raise e => [error_occurred (MsgOpenFailed e)]
        | Ok clip =>
            [error_occurred (MsgLoaded (basename video_path));
             error_occurred (MsgSize (size clip))]
            ++ (try_except (preview_of_clip w p clip)
                  (λ e, emit (error_occurred (MsgPreviewError e)))).1
        end
    end.
Proof.
  unfold process_preview.
  destruct (video_files p) as [|video_path rest]; [reflexivity|].
  destruct (VideoFileClip w video_path) as [clip|e]; [|reflexivity].
  run_M. now destruct (preview_of_clip w p clip) as [evs [[]|e]].
Qed.

(** The signals of a preview whose clip opens and whose shift succeeds. *)
Lemma process_preview_eq w p video_path rest clip frame moved :
  video_files p = video_path :: rest →
  VideoFileClip w video_path = Ok clip →
  get_frame clip (frame_time clip) = Ok frame →
  moved_frame frame (size clip).1 (size clip).2 (offset p) = Ok moved →
  let block1 := overlay_block w 1 (header_img1_path p) (header_img1_x p)
                  (header_img1_y p) (header_img1_scale p)
                  (size clip).1 (size clip).2 moved in
  let after1 := surviving (overlay_body w 1 (header_img1_path p) (header_img1_x p)
                  (header_img1_y p) (header_img1_scale p)
                  (size clip).1 (size clip).2 moved) moved in
  let block2 := overlay_block w 2 (header_img2_path p) (header_img2_x p)
                  (header_img2_y p) (header_img2_scale p)
                  (size clip).1 (size clip).2 after1 in
  let after2 := surviving (overlay_body w 2 (header_img2_path p) (header_img2_x p)
                  (header_img2_y p) (header_img2_scale p)
                  (size clip).1 (size clip).2 after1) after1 in
  process_preview w p
  = [error_occurred (MsgLoaded (basename video_path)); error_occurred (MsgSize (size clip))]
    ++ block1.1 ++ block2.1 ++ [preview_frame_ready after2].
Proof.
  intros Hfiles Hopen Hframe Hmoved block1 after1 block2 after2.
  rewrite process_preview_unfold, Hfiles, Hopen. unfold preview_of_clip.
  destruct (size clip) as [video_width video_height] eqn:Hsize. cbn [fst snd] in *.
  rewrite Hframe, bind_lift_ok, Hmoved, bind_lift_ok.
  subst block1 block2. rewrite overlay_block_spec. cbv zeta.
  rewrite bind_ok. cbv beta. fold after1.
  rewrite !overlay_block_spec. cbv zeta. rewrite !bind_ok. cbv beta. fold after2.
  run_M. now rewrite <- !app_assoc.
Qed.

(** With overlay [n] missing its block does nothing, whatever else the
    job says. *)
Lemma preview_of_clip_without1 w p clip :
  missing w (header_img1_path p) →
  preview_of_clip w p clip = preview_of_clip w (without_img1 p) clip.
Proof.
  intros Hm. unfold preview_of_clip.
  destruct (size clip) as [video_width video_height].
  cbn [without_img1 offset header_img1_path header_img1_x header_img1_y
       header_img1_scale header_img2_path header_img2_x header_img2_y
       header_img2_scale].
  destruct (get_frame clip (frame_time clip)) as [frame|e]; [|reflexivity].
  rewrite !bind_lift_ok.
  destruct (moved_frame _ _ _ _) as [moved|e]; [|reflexivity].
  rewrite !bind_lift_ok.
  rewrite !(overlay_block_missing w 1) by (exact Hm || now left). reflexivity.
Qed.

Lemma preview_of_clip_without2 w p clip :
  missing w (header_img2_path p) →
  preview_of_clip w p clip = preview_of_clip w (without_img2 p) clip.
Proof.
  intros Hm. unfold preview_of_clip.
  destruct (size clip) as [video_width video_height].
  cbn [without_img2 offset header_img1_path header_img1_x header_img1_y
       header_img1_scale header_img2_path header_img2_x header_img2_y
       header_img2_scale].
  destruct (get_frame clip (frame_time clip)) as [frame|e]; [|reflexivity].
  rewrite !bind_lift_ok.
  destruct (moved_frame _ _ _ _) as [moved|e]; [|reflexivity].
  rewrite !bind_lift_ok.
  rewrite (overlay_block_spec w 1). cbv zeta. rewrite !bind_ok.
  rewrite !(overlay_block_missing w 2) by (exact Hm || now left). reflexivity.
Qed.

(** C4: an overlay whose path is missing, empty or names no file is
    skipped without a failure: the run is the run of the same job with that
    overlay absent, and with both overlays missing the frame emitted is the
    shifted frame. *)
Theorem missing_overlay_is_skipped w p :
  (missing w (header_img1_path p) →
     process_preview w p = process_preview w (without_img1 p))
  ∧ (missing w (header_img2_path p) →
     process_preview w p = process_preview w (without_img2 p))
  ∧ (missing w (header_img1_path p) → missing w (header_img2_path p) →
     ∀ video_path rest clip frame moved,
       video_files p = video_path :: rest →
       VideoFileClip w video_path = Ok clip →
       get_frame clip (frame_time clip) = Ok frame →
       moved_frame frame (size clip).1 (size clip).2 (offset p) = Ok moved →
       process_preview w p
       = [error_occurred (MsgLoaded (basename video_path));
          error_occurred (MsgSize (size clip));
          preview_frame_ready moved]).
Proof.
  split; [|split].
  - intros Hm. rewrite !process_preview_unfold.
    cbn [without_img1 video_files].
    destruct (video_files p) as [|video_path rest]; [reflexivity|].
    destruct (VideoFileClip w video_path) as [clip|e]; [|reflexivity].
    now rewrite (preview_of_clip_without1 w p clip Hm).
  - intros Hm. rewrite !process_preview_unfold.
    cbn [without_img2 video_files].
    destruct (video_files p) as [|video_path rest]; [reflexivity|].
    destruct (VideoFileClip w video_path) as [clip|e]; [|reflexivity].
    now rewrite (preview_of_clip_without2 w p clip Hm).
  - intros Hm1 Hm2 video_path rest clip frame moved Hfiles Hopen Hframe Hmoved.
    rewrite (process_preview_eq w p video_path rest clip frame moved) by assumption.
    cbv zeta. rewrite !surviving_missing by assumption.
    rewrite !overlay_block_missing by assumption. reflexivity.
Qed.

Lemma missing_overlay_is_skipped_witness :
  let p := Demo.job ["a.mp4"] 1 (Some "nothere.png") (Some "") true in
  missing Demo.world (header_img1_path p) ∧ missing Demo.world (header_img2_path p)
  ∧ process_preview Demo.world p
    = [error_occurred (MsgLoaded "a.mp4"); error_occurred (MsgSize (4, 12));
       preview_frame_ready
         (take 1 (zeros 12 4 3) ++ take 11 (Demo.frame 12 4))].
Proof.
  intros p.
  assert (Hm1 : missing Demo.world (header_img1_path p)).
  { right. right. exists "nothere.png". split; reflexivity. }
  assert (Hm2 : missing Demo.world (header_img2_path p)) by (right; left; reflexivity).
  split; [exact Hm1|]. split; [exact Hm2|].
  assert (Hfiles : video_files p = ["a.mp4"]) by reflexivity.
  assert (Hopen : VideoFileClip Demo.world "a.mp4" = Ok (Demo.clip 4 12))
    by (vm_compute; reflexivity).
  assert (Hframe : get_frame (Demo.clip 4 12) (frame_time (Demo.clip 4 12))
                   = Ok (Demo.frame 12 4)) by reflexivity.
  assert (Hmoved : moved_frame (Demo.frame 12 4) (size (Demo.clip 4 12)).1
                     (size (Demo.clip 4 12)).2 (offset p)
                   = Ok (take 1 (zeros 12 4 3) ++ take 11 (Demo.frame 12 4)))
    by (vm_compute; reflexivity).
  exact (proj2 (proj2 (missing_overlay_is_skipped Demo.world p)) Hm1 Hm2
           "a.mp4" [] (Demo.clip 4 12) (Demo.frame 12 4)
           (take 1 (zeros 12 4 3) ++ take 11 (Demo.frame 12 4))
           Hfiles Hopen Hframe Hmoved).
Defined.

(** C10: whatever the two overlay blocks do, a preview whose clip opens
    and whose shift succeeds emits log lines and then the preview frame,
    once; an exception in the body of a block is reported by that block and
    leaves the frame as it was before the block, so the frame emitted is the
    shifted frame with the overlays that succeeded. *)
Theorem overlay_failure_keeps_preview w p video_path rest clip frame moved :
  video_files p = video_path :: rest →
  VideoFileClip w video_path = Ok clip →
  get_frame clip (frame_time clip) = Ok frame →
  moved_frame frame (size clip).1 (size clip).2 (offset p) = Ok moved →
  let body1 := overlay_body w 1 (header_img1_path p) (header_img1_x p)
                 (header_img1_y p) (header_img1_scale p)
                 (size clip).1 (size clip).2 moved in
  let after1 := surviving body1 moved in
  let body2 := overlay_body w 2 (header_img2_path p) (header_img2_x p)
                 (header_img2_y p) (header_img2_scale p)
                 (size clip).1 (size clip).2 after1 in
  let after2 := surviving body2 after1 in
  ∃ logs,
    process_preview w p = logs ++ [preview_frame_ready after2]
    ∧ Forall (λ e, is_log e = true) logs
    ∧ (∀ e, body1.2 = Raise e →
         error_occurred (MsgImgError 1 e) ∈ logs ∧ after1 = moved)
    ∧ (∀ e, body2.2 = Raise e →
         error_occurred (MsgImgError 2 e) ∈ logs ∧ after2 = after1).
Proof.
  intros Hfiles Hopen Hframe Hmoved body1 after1 body2 after2.
  pose proof (process_preview_eq w p video_path rest clip frame moved
                Hfiles Hopen Hframe Hmoved) as Heq.
  cbv zeta in Heq. fold body1 after1 body2 after2 in Heq.
  eexists. split.
  { rewrite Heq. rewrite !app_assoc. reflexivity. }
  split; [|split].
  - repeat apply Forall_app_2; try apply overlay_block_logs. repeat constructor.
  - intros e He. split.
    + rewrite overlay_block_spec. cbv zeta. fold body1. rewrite He. simpl.
      repeat (rewrite elem_of_cons || rewrite elem_of_app). auto 10.
    + unfold after1, surviving. now rewrite He.
  - intros e He. split.
    + rewrite (overlay_block_spec w 2). cbv zeta. fold body2. rewrite He. simpl.
      repeat (rewrite elem_of_cons || rewrite elem_of_app). auto 10.
    + unfold after2, surviving. now rewrite He.
Qed.

Lemma overlay_failure_keeps_preview_witness :
  let p := Demo.job ["a.mp4"] 1 (Some "corrupt.png") (Some "badge.png") true in
  let moved := take 1 (zeros 12 4 3) ++ take 11 (Demo.frame 12 4) in
  ∃ logs,
    process_preview Demo.world p
    = logs ++ [preview_frame_ready
                 (overwritten moved (img_frame Demo.badge) (Placement 0 11 2 1))]
    ∧ Forall (λ e, is_log e = true) logs
    ∧ error_occurred (MsgImgError 1 "cannot identify image file") ∈ logs.
Proof.
  intros p moved.
  assert (Hfiles : video_files p = ["a.mp4"]) by reflexivity.
  assert (Hopen : VideoFileClip Demo.world "a.mp4" = Ok (Demo.clip 4 12))
    by (vm_compute; reflexivity).
  assert (Hframe : get_frame (Demo.clip 4 12) (frame_time (Demo.clip 4 12))
                   = Ok (Demo.frame 12 4)) by reflexivity.
  assert (Hmoved : moved_frame (Demo.frame 12 4) (size (Demo.clip 4 12)).1
                     (size (Demo.clip 4 12)).2 (offset p) = Ok moved)
    by (vm_compute; reflexivity).
  destruct (overlay_failure_keeps_preview Demo.world p "a.mp4" [] (Demo.clip 4 12)
              (Demo.frame 12 4) moved Hfiles Hopen Hframe Hmoved)
    as (logs & Hrun & Hlogs & Hfail1 & _).
  exists logs. split; [exact Hrun|]. split; [exact Hlogs|].
  exact (proj1 (Hfail1 _ eq_refl)).
Defined.

(** ** The batch: C6, C7 and C8 *)

Lemma files_written_app evs1 evs2 :
  files_written (evs1 ++ evs2) = files_written evs1 ++ files_written evs2.
Proof. unfold files_written. apply omap_app. Qed.

Lemma files_written_logs evs :
  Forall (λ e, is_log e = true) evs → files_written evs = [].
Proof.
  induction 1 as [|e evs He _ IH]; [reflexivity|].
  destruct e; try discriminate He. exact IH.
Qed.

Lemma not_finished_logs evs :
  Forall (λ e, is_log e = true) evs → Forall (λ e, is_finished e = false) evs.
Proof. intros Hl. eapply Forall_impl; [exact Hl|]. intros e He. now destruct e. Qed.

(** Adding an overlay layer never raises, emits log lines only, and adds
    at most one layer. *)
Lemma add_header_img_ok w n path x y scale clip layers :
  ∃ evs added,
    add_header_img w n path x y scale clip layers = (evs, Ok (layers ++ added))
    ∧ Forall (λ e, is_log e = true) evs
    ∧ header_layer x y (duration clip) added.
Proof.
  unfold add_header_img, header_layer. destruct (present w path).
  2:{ exists [], []. rewrite app_nil_r. repeat split; [constructor|now left]. }
  run_M. destruct (ImageClip w _) as [img|e]; simpl.
  2:{ exists [error_occurred (MsgAddImgError n e)], []. rewrite app_nil_r.
      repeat split; [repeat constructor|now left]. }
  destruct (resize w img _) as [img'|e]; simpl.
  2:{ exists [error_occurred (MsgAddImgError n e)], []. rewrite app_nil_r.
      repeat split; [repeat constructor|now left]. }
  exists [error_occurred (MsgAddImg n scale x y)], [HeaderImg img' (x, y) (duration clip)].
  repeat split; [repeat constructor|right; now exists img'].
Qed.

(** The three ways the body of an item ends: the clip does not open, the
    write raises, or the file is written. *)
Lemma item_body_cases w p out_dir idx total video_path :
  let head := [progress_updated (progress idx total);
               error_occurred (MsgProcessing (idx + 1) total (basename video_path))] in
  let body := item_body w p out_dir idx total video_path in
  (∃ e, VideoFileClip w video_path = Raise e ∧ body = (head, Raise e))
  ∨ ∃ clip evs layers,
      VideoFileClip w video_path = Ok clip ∧ Forall (λ e, is_log e = true) evs
      ∧ export_layers p clip layers
      ∧ let call := write_args out_dir video_path clip layers in
        (∃ e, write_videofile w call = Raise e
              ∧ body = (head ++ evs, Raise e))
        ∨ (write_videofile w call = Ok tt
           ∧ body = (head ++ evs
                     ++ [file_written call;
                         error_occurred (MsgDone (basename (output_file call)))],
                     Ok tt)).
Proof.
  intros head body. subst body. unfold item_body.
  destruct (VideoFileClip w video_path) as [clip|e].
  2:{ left. exists e. split; reflexivity. }
  right. exists clip.
  destruct (add_header_img_ok w 1 (header_img1_path p) (header_img1_x p)
              (header_img1_y p) (header_img1_scale p) clip
              [ColorClip (size clip) (0, 0, 0) (duration clip);
               MovedClip clip (0, Z.min (offset p) ((size clip).2 - 10))])
    as (evs1 & added1 & Hadd1 & Hlogs1 & Hlayer1).
  destruct (add_header_img_ok w 2 (header_img2_path p) (header_img2_x p)
              (header_img2_y p) (header_img2_scale p) clip
              ([ColorClip (size clip) (0, 0, 0) (duration clip);
                MovedClip clip (0, Z.min (offset p) ((size clip).2 - 10))]
               ++ added1))
    as (evs2 & added2 & Hadd2 & Hlogs2 & Hlayer2).
  simpl in Hadd1, Hadd2.
  exists ([error_occurred (MsgSize (size clip))] ++ evs1 ++ evs2
          ++ [error_occurred
                (MsgWriting (basename (output_path out_dir video_path)))]),
         ([ColorClip (size clip) (0, 0, 0) (duration clip);
           MovedClip clip (0, Z.min (offset p) ((size clip).2 - 10))]
          ++ added1 ++ added2).
  split; [reflexivity|]. split.
  { repeat apply Forall_app_2; auto; repeat constructor. }
  split.
  { exists added1, added2. now repeat split. }
  cbv zeta. run_M. rewrite Hadd1. simpl. rewrite Hadd2. simpl.
  destruct (write_videofile w _) as [[]|e]; simpl.
  - right. split; [reflexivity|]. rewrite <- !app_assoc. reflexivity.
  - left. exists e. split; reflexivity.
Qed.

Section Item.

Variables (w : world) (p : VideoProcessor) (out_dir : string) (total : Z).

(** An exception of the body is caught and logged with the name of the
    file. *)
Lemma process_item_raise idx video_path e :
  (item_body w p out_dir idx total video_path).2 = Raise e →
  process_item w p out_dir idx total video_path
  = (item_body w p out_dir idx total video_path).1
    ++ [error_occurred (MsgItemError (basename video_path) e)].
Proof.
  unfold process_item. destruct (item_body _ _ _ _ _ _) as [evs [u|e']]; simpl.
  - discriminate.
  - now intros [= ->].
Qed.

Lemma process_item_ok idx video_path u :
  (item_body w p out_dir idx total video_path).2 = Ok u →
  process_item w p out_dir idx total video_path
  = (item_body w p out_dir idx total video_path).1.
Proof.
  unfold process_item. destruct (item_body _ _ _ _ _ _) as [evs [u'|e']]; simpl.
  - reflexivity.
  - discriminate.
Qed.

(** Every item starts by reporting its progress. *)
Lemma process_item_head idx video_path :
  ∃ evs, process_item w p out_dir idx total video_path
         = progress_updated (progress idx total) :: evs.
Proof.
  destruct (item_body_cases w p out_dir idx total video_path)
    as [(e & _ & Hb)|(clip & evs & layers & _ & _ & _ & [(e & _ & Hb)|(_ & Hb)])].
  - rewrite (process_item_raise _ _ e) by now rewrite Hb. rewrite Hb. eexists. reflexivity.
  - rewrite (process_item_raise _ _ e) by now rewrite Hb. rewrite Hb. eexists. reflexivity.
  - rewrite (process_item_ok _ _ tt) by now rewrite Hb. rewrite Hb. eexists. reflexivity.
Qed.

(** An item leaves its output file when its body returns, and no file
    when it raises. *)
Lemma files_written_item idx video_path :
  files_written (process_item w p out_dir idx total video_path)
  = match (item_body w p out_dir idx total video_path).2 with
    | Ok _ => [output_path out_dir video_path]
    | Raise _ => []
    end.
Proof.
  destruct (item_body_cases w p out_dir idx total video_path)
    as [(e & _ & Hb)|(clip & evs & layers & _ & Hlogs & _ & [(e & _ & Hb)|(_ & Hb)])].
  - rewrite (process_item_raise _ _ e) by now rewrite Hb. rewrite Hb. reflexivity.
  - rewrite (process_item_raise _ _ e) by now rewrite Hb. rewrite Hb. simpl.
    rewrite files_written_app. now rewrite (files_written_logs evs Hlogs).
  - rewrite (process_item_ok _ _ tt) by now rewrite Hb. rewrite Hb. simpl.
    rewrite files_written_app. now rewrite (files_written_logs evs Hlogs).
Qed.

Lemma process_item_not_finished idx video_path :
  Forall (λ e, is_finished e = false) (process_item w p out_dir idx total video_path).
Proof.
  destruct (item_body_cases w p out_dir idx total video_path)
    as [(e & _ & Hb)|(clip & evs & layers & _ & Hlogs & _ & [(e & _ & Hb)|(_ & Hb)])].
  - rewrite (process_item_raise _ _ e) by now rewrite Hb. rewrite Hb.
    repeat constructor.
  - rewrite (process_item_raise _ _ e) by now rewrite Hb. rewrite Hb. simpl.
    repeat (constructor; [reflexivity|]).
    apply Forall_app. split; [now apply not_finished_logs|repeat constructor].
  - rewrite (process_item_ok _ _ tt) by now rewrite Hb. rewrite Hb. simpl.
    repeat (constructor; [reflexivity|]).
    apply Forall_app. split; [now apply not_finished_logs|repeat constructor].
Qed.

(** *** The loop *)

Lemma items_trace_app idx files1 files2 :
  items_trace w p out_dir total idx (files1 ++ files2)
  = items_trace w p out_dir total idx files1
    ++ items_trace w p out_dir total (idx + length files1) files2.
Proof.
  revert idx. induction files1 as [|video_path files1 IH]; intros idx; simpl.
  - now rewrite Nat.add_0_r.
  - rewrite IH, <- app_assoc. do 3 f_equal. lia.
Qed.

(** The signals of item [k] are a segment of the trace. *)
Lemma items_trace_lookup idx files k video_path :
  files !! k = Some video_path →
  items_trace w p out_dir total idx files
  = items_trace w p out_dir total idx (take k files)
    ++ process_item w p out_dir (Z.of_nat (idx + k)) total video_path
    ++ items_trace w p out_dir total (S (idx + k)) (drop (S k) files).
Proof.
  intros Hk. pose proof (lookup_lt_Some _ _ _ Hk) as Hlt.
  rewrite <- (take_drop_middle files k video_path Hk) at 1.
  rewrite items_trace_app. simpl. rewrite length_take, Nat.min_l by lia.
  reflexivity.
Qed.

Lemma items_trace_not_finished idx files :
  Forall (λ e, is_finished e = false) (items_trace w p out_dir total idx files).
Proof.
  revert idx. induction files as [|video_path files IH]; intros idx; simpl.
  - constructor.
  - apply Forall_app. split; [apply process_item_not_finished|apply IH].
Qed.

(** Every file of the trace is the output file of one of the items. *)
Lemma files_written_items idx files f :
  f ∈ files_written (items_trace w p out_dir total idx files) →
  ∃ k video_path, files !! k = Some video_path ∧ f = output_path out_dir video_path.
Proof.
  revert idx. induction files as [|video_path files IH]; intros idx; simpl.
  - intros Hf. inversion Hf.
  - rewrite files_written_app, elem_of_app, files_written_item.
    intros [Hf|Hf].
    + destruct (item_body _ _ _ _ _ _).2; [|inversion Hf].
      apply list_elem_of_singleton in Hf. exists 0%nat, video_path. now split.
    + destruct (IH _ Hf) as (k & path & Hk & ->). exists (S k), path. now split.
Qed.

(** Without a poll that finds the flag set, the loop runs every item, then
    forces progress to 100 and reports completion. *)
Lemma process_loop_run stop_at idx files :
  (∀ i, (idx ≤ i < idx + length files)%nat → stopped stop_at i = false) →
  process_loop w p out_dir stop_at total idx files
  = items_trace w p out_dir total idx files
    ++ [progress_updated 100; processing_finished (MsgAllDone total)].
Proof.
  revert idx. induction files as [|video_path files IH]; intros idx Hrun; simpl.
  - reflexivity.
  - rewrite Hrun by (simpl; lia). rewrite IH, <- app_assoc; [reflexivity|].
    intros i Hi. apply Hrun. simpl. lia.
Qed.

(** When [stop()] is called after [t] polls and item [t] exists, the loop
    runs the items before [t], reports the interruption and returns. *)
Lemma process_loop_stop t idx files :
  (idx ≤ t < idx + length files)%nat →
  process_loop w p out_dir (Some t) total idx files
  = items_trace w p out_dir total idx (take (t - idx) files)
    ++ [error_occurred MsgUserInterrupt].
Proof.
  revert idx. induction files as [|video_path files IH]; intros idx Ht; simpl in *.
  - lia.
  - destruct (bool_decide (t ≤ idx)%nat) eqn:Hpoll.
    + apply bool_decide_eq_true in Hpoll.
      replace (t - idx)%nat with 0%nat by lia. reflexivity.
    + apply bool_decide_eq_false in Hpoll.
      replace (t - idx)%nat with (S (t - S idx)) by lia. simpl.
      rewrite IH by lia. now rewrite <- app_assoc.
Qed.

End Item.

(** *** Paths *)

Lemma append_cons c s t : String c s +:+ t = String c (s +:+ t).
Proof. reflexivity. Qed.

Lemma append_empty_r s : s +:+ "" = s.
Proof. induction s as [|c s IH]; [reflexivity|]. now rewrite append_cons, IH. Qed.

Lemma substring_all s : substring 0 (String.length s) s = s.
Proof. induction s as [|c s IH]; [reflexivity|]. simpl. f_equal. exact IH. Qed.

Lemma substring_split s n :
  (n ≤ String.length s)%nat →
  substring 0 n s +:+ substring n (String.length s - n) s = s.
Proof.
  revert n. induction s as [|c s IH]; intros [|n] Hn; simpl in Hn |- *.
  - reflexivity.
  - lia.
  - change (String c (substring 0 (String.length s) s) = String c s).
    f_equal. apply substring_all.
  - rewrite append_cons. f_equal. apply IH. lia.
Qed.

Lemma upto_from k s : 0 ≤ k ≤ slen s → upto k s +:+ from k s = s.
Proof. intros Hk. unfold upto, from, slen in *. apply substring_split. lia. Qed.

Lemma from_0 s : from 0 s = s.
Proof. unfold from. simpl. rewrite Nat.sub_0_r. apply substring_all. Qed.

Lemma from_cons k d t : 0 ≤ k → from (k + 1) (String d t) = from k t.
Proof.
  intros Hk. unfold from. replace (Z.to_nat (k + 1)) with (S (Z.to_nat k)) by lia.
  reflexivity.
Qed.

(** [rfind] answers [-1] or a position of the string. *)
Lemma rfind_from_range c s i :
  0 ≤ i → rfind_from c s i = -1 ∨ i ≤ rfind_from c s i < i + slen s.
Proof.
  revert i. induction s as [|d t IH]; intros i Hi; [now left|].
  simpl. unfold slen in *. simpl String.length.
  destruct (IH (i + 1)) as [->|Hr]; [lia|..].
  - simpl. destruct (Ascii.eqb d c); [right; lia|now left].
  - right. destruct (Z.leb_spec 0 (rfind_from c t (i + 1))); lia.
Qed.

(** Searching from another starting position shifts the answer. *)
Lemma rfind_from_shift c s i j :
  0 ≤ i → 0 ≤ j →
  (rfind_from c s i = -1 → rfind_from c s j = -1)
  ∧ (rfind_from c s i ≠ -1 → rfind_from c s j = rfind_from c s i - i + j).
Proof.
  revert i j. induction s as [|d t IH]; intros i j Hi Hj; [now split|].
  simpl.
  destruct (IH (i + 1) (j + 1)) as [Hnone Hsome]; [lia..|].
  destruct (rfind_from_range c t (i + 1)) as [Hr|Hr]; [lia|..].
  - rewrite Hr, (Hnone Hr). simpl. destruct (Ascii.eqb d c); split; intros; lia.
  - assert (Hne : rfind_from c t (i + 1) ≠ -1) by lia.
    rewrite (Hsome Hne).
    destruct (Z.leb_spec 0 (rfind_from c t (i + 1))); [|lia].
    destruct (Z.leb_spec 0 (rfind_from c t (i + 1) - (i + 1) + (j + 1))); [|lia].
    split; intros; lia.
Qed.

(** What follows the last occurrence of [c] has no [c]. *)
Lemma occurs_after_rfind c s : occurs c (from (rfind c s + 1) s) = false.
Proof.
  induction s as [|d t IH]; [reflexivity|].
  unfold rfind in *. simpl. change (0 + 1) with 1.
  destruct (rfind_from_shift c t 1 0) as [Hnone Hsome]; [lia..|].
  destruct (rfind_from_range c t 1) as [Hr|Hr]; [lia|..].
  - rewrite Hr. simpl. rewrite (Hnone Hr) in IH. simpl in IH. rewrite from_0 in IH.
    destruct (Ascii.eqb d c) eqn:Hd.
    + rewrite (from_cons 0) by lia. now rewrite from_0.
    + change (-1 + 1) with 0. rewrite from_0. simpl. now rewrite Hd, IH.
  - assert (Hne : rfind_from c t 1 ≠ -1) by lia.
    destruct (Z.leb_spec 0 (rfind_from c t 1)); [|lia].
    rewrite from_cons by lia. rewrite (Hsome Hne) in IH.
    replace (rfind_from c t 1 - 1 + 0 + 1) with (rfind_from c t 1) in IH by lia.
    exact IH.
Qed.

Lemma occurs_append c a b : occurs c (a +:+ b) = occurs c a || occurs c b.
Proof.
  induction a as [|d a IH]; [reflexivity|].
  rewrite append_cons. simpl. now rewrite IH, orb_assoc.
Qed.

Lemma occurs_substring c s n m : occurs c s = false → occurs c (substring n m s) = false.
Proof.
  revert n m. induction s as [|d t IH]; intros n m Hs.
  - now destruct n, m.
  - simpl in Hs. apply orb_false_iff in Hs as [Hd Ht].
    destruct n as [|n]; [destruct m as [|m]|]; simpl.
    + reflexivity.
    + now rewrite Hd, IH.
    + now apply IH.
Qed.

Lemma startswith_slash_occurs s : occurs "/" s = false → startswith_slash s = false.
Proof.
  destruct s as [|d t]; [reflexivity|]. simpl. intros Hs.
  now apply orb_false_iff in Hs as [-> _].
Qed.

(** The base name has no directory separator. *)
Lemma basename_no_slash p : occurs "/" (basename p) = false.
Proof. apply occurs_after_rfind. Qed.

(** Root and extension make up the path again. *)
Lemma splitext_append p : (splitext p).1 +:+ (splitext p).2 = p.
Proof.
  unfold splitext. destruct (_ && _) eqn:Hsplit; simpl.
  - apply andb_true_iff in Hsplit as [Hlt _]. apply Z.ltb_lt in Hlt.
    destruct (rfind_from_range "/" p 0) as [Hs|Hs]; [lia|..];
      destruct (rfind_from_range "." p 0) as [Hd|Hd]; try lia;
      unfold rfind in *; apply upto_from; lia.
  - apply append_empty_r.
Qed.

Lemma splitext_no_slash p :
  occurs "/" p = false →
  occurs "/" (splitext p).1 = false ∧ occurs "/" (splitext p).2 = false.
Proof.
  intros Hp. unfold splitext. destruct (_ && _); simpl.
  - unfold upto, from. split; now apply occurs_substring.
  - now split.
Qed.

(** The output file lies directly in the output directory: its path is
    the directory, a separator unless the directory ends with one, and a
    name without separators made of the root of the base name,
    ["_processed"] and the extension of the base name. *)
Lemma output_path_in_dir out_dir video_path :
  let name := (splitext (basename video_path)).1 +:+ "_processed"
              +:+ (splitext (basename video_path)).2 in
  occurs "/" name = false
  ∧ output_path out_dir video_path
    = if (slen out_dir =? 0) || endswith_slash out_dir
      then out_dir +:+ name else out_dir +:+ "/" +:+ name.
Proof.
  intros name.
  destruct (splitext_no_slash _ (basename_no_slash video_path)) as [Hroot Hext].
  assert (Hname : occurs "/" name = false).
  { unfold name. rewrite !occurs_append, Hroot, Hext. reflexivity. }
  split; [exact Hname|].
  unfold output_path. fold name.
  destruct (splitext (basename video_path)) as [root ext] eqn:Hsplit.
  simpl in name. unfold join. fold name.
  now rewrite (startswith_slash_occurs _ Hname).
Qed.

(** *** C6 *)

Lemma process_videos_run w p stop_at :
  video_files p ≠ [] → truthy (output_dir p) = true →
  (∀ i, (i < length (video_files p))%nat → stopped stop_at i = false) →
  process_videos w p stop_at
  = items_trace w p (default EmptyString (output_dir p))
      (Z.of_nat (length (video_files p))) 0 (video_files p)
    ++ [progress_updated 100;
        processing_finished (MsgAllDone (Z.of_nat (length (video_files p))))].
Proof.
  intros Hfiles Hdir Hrun. unfold process_videos. rewrite Hdir.
  destruct (video_files p) as [|video_path rest] eqn:Hvf; [contradiction|].
  apply process_loop_run. intros i Hi. apply Hrun. lia.
Qed.

(** For up to 100 files the progress of an item is the percentage
    [100 * idx / N] rounded down, or one less where the float64 product
    falls just below an integer; checked for every index of every such
    batch. *)
Lemma progress_table :
  forallb (λ N, forallb (progress_near N) (seqZ 0 N)) (seqZ 1 100) = true.
Proof. vm_compute. reflexivity. Qed.

Lemma progress_bounds idx total_files :
  0 ≤ idx < total_files → total_files ≤ 100 →
  100 * idx / total_files - 1 ≤ progress idx total_files ≤ 100 * idx / total_files.
Proof.
  intros Hidx Htotal. pose proof progress_table as Htab.
  rewrite forallb_forall in Htab.
  assert (Hin : In total_files (seqZ 1 100))
    by (apply list_elem_of_In, elem_of_seqZ; lia).
  specialize (Htab _ Hin). rewrite forallb_forall in Htab.
  assert (Hin' : In idx (seqZ 0 total_files))
    by (apply list_elem_of_In, elem_of_seqZ; lia).
  specialize (Htab _ Hin'). unfold progress_near in Htab. zbool. lia.
Qed.

(** C6: in a run that no poll interrupts, every item reports its progress
    first, and the value is [int((idx / N) * 100)]: the float64 quotient
    of the index and the number of files, times 100, truncated, which for
    up to 100 files is the percentage [100 * idx / N] rounded down or one
    less; an
    exception of an item is caught and logged with the name of its file;
    every item is run whatever the others did, and leaves its output file
    when its body returns; after the loop progress is forced to 100 and the
    summary names all [N] files. *)
Theorem partial_failure_batch w p stop_at :
  video_files p ≠ [] → truthy (output_dir p) = true →
  (∀ i, (i < length (video_files p))%nat → stopped stop_at i = false) →
  let files := video_files p in
  let N := Z.of_nat (length files) in
  let out_dir := default EmptyString (output_dir p) in
  process_videos w p stop_at
  = items_trace w p out_dir N 0 files
    ++ [progress_updated 100; processing_finished (MsgAllDone N)]
  ∧ ∀ k video_path, files !! k = Some video_path →
      let body := item_body w p out_dir (Z.of_nat k) N video_path in
      let item := process_item w p out_dir (Z.of_nat k) N video_path in
      (∃ before after, process_videos w p stop_at = before ++ item ++ after)
      ∧ (∃ evs,
           item = progress_updated
                    (int_of_float (float_of_Z (Z.of_nat k) / float_of_Z N * 100)%float)
                  :: evs)
      ∧ (N ≤ 100 →
           100 * Z.of_nat k / N - 1
           ≤ int_of_float (float_of_Z (Z.of_nat k) / float_of_Z N * 100)%float
           ≤ 100 * Z.of_nat k / N)
      ∧ (∀ e, body.2 = Raise e →
           item = body.1 ++ [error_occurred (MsgItemError (basename video_path) e)])
      ∧ (body.2 = Ok tt →
           files_written item = [output_path out_dir video_path]
           ∧ output_path out_dir video_path
             ∈ files_written (process_videos w p stop_at)).
Proof.
  intros Hfiles Hdir Hrun files N out_dir.
  pose proof (process_videos_run w p stop_at Hfiles Hdir Hrun) as Heq.
  fold files N out_dir in Heq. split; [exact Heq|].
  intros k video_path Hk body item.
  pose proof (items_trace_lookup w p out_dir N 0 files k video_path Hk) as Hseg.
  simpl in Hseg. fold item in Hseg.
  assert (Hin : ∃ before after, process_videos w p stop_at = before ++ item ++ after).
  { exists (items_trace w p out_dir N 0 (take k files)),
           (items_trace w p out_dir N (S k) (drop (S k) files)
            ++ [progress_updated 100; processing_finished (MsgAllDone N)]).
    rewrite Heq, Hseg. now rewrite <- !app_assoc. }
  split; [exact Hin|]. split; [exact (process_item_head _ _ _ _ _ _)|]. split.
  { intros HN. apply (progress_bounds (Z.of_nat k) N); [|exact HN].
    apply lookup_lt_Some in Hk. unfold N. lia. }
  split.
  - intros e He. now apply process_item_raise.
  - intros Hok.
    assert (Hitem : files_written item = [output_path out_dir video_path]).
    { unfold item. rewrite files_written_item. fold body. now rewrite Hok. }
    split; [exact Hitem|].
    destruct Hin as (before & after & ->).
    rewrite !files_written_app, Hitem, !elem_of_app. right. left.
    apply list_elem_of_singleton. reflexivity.
Qed.

Lemma partial_failure_batch_witness :
  let p := Demo.job ["v/a.mp4"; "broken.mp4"; "full.mp4"; "b.avi"] 1
             (Some "logo.png") None false in
  process_videos Demo.world p None
  = items_trace Demo.world p "out" 4 0 (video_files p)
    ++ [progress_updated 100; processing_finished (MsgAllDone 4)]
  ∧ files_written (process_videos Demo.world p None)
    = ["out/a_processed.mp4"; "out/b_processed.avi"]
  ∧ progress_values (process_videos Demo.world p None) = [0; 25; 50; 75; 100]
  ∧ omap (λ e, match e with
               | error_occurred (MsgItemError name e) => Some (name, e)
               | _ => None
               end) (process_videos Demo.world p None)
    = [("broken.mp4", "moov atom not found"); ("full.mp4", "No space left on device")].
Proof.
  intros p. split; [|split; [|split]].
  - refine (proj1 (partial_failure_batch Demo.world p None _ eq_refl _)).
    + discriminate.
    + reflexivity.
  - vm_compute. reflexivity.
  - vm_compute. reflexivity.
  - vm_compute. reflexivity.
Defined.

(** *** C7 *)

(** C7 (amended): when a poll finds the flag set, that is when [stop()]
    was called before the poll of an item [t] of the list, the items before
    [t] have run as in an uninterrupted run and their output files stay, no
    later item is started and no other file is written, the interruption is
    reported, and the completion signal is not emitted. *)
Theorem cancellation_at_poll w p t :
  truthy (output_dir p) = true → (t < length (video_files p))%nat →
  let files := video_files p in
  let N := Z.of_nat (length files) in
  let out_dir := default EmptyString (output_dir p) in
  let run := process_videos w p (Some t) in
  let done := items_trace w p out_dir N 0 (take t files) in
  run = done ++ [error_occurred MsgUserInterrupt]
  ∧ done `prefix_of` process_videos w p None
  ∧ Forall (λ e, is_finished e = false) run
  ∧ (∀ f, f ∈ files_written run →
       ∃ k video_path, (k < t)%nat ∧ files !! k = Some video_path
                       ∧ f = output_path out_dir video_path)
  ∧ (∀ k video_path, (k < t)%nat → files !! k = Some video_path →
       (item_body w p out_dir (Z.of_nat k) N video_path).2 = Ok tt →
       output_path out_dir video_path ∈ files_written run).
Proof.
  intros Hdir Ht files N out_dir run done.
  assert (Hne : video_files p ≠ []).
  { intros Hnil. rewrite Hnil in Ht. simpl in Ht. lia. }
  assert (Hrun : run = done ++ [error_occurred MsgUserInterrupt]).
  { unfold run, process_videos. rewrite Hdir.
    destruct (video_files p) as [|video_path rest] eqn:Hvf; [contradiction|].
    fold out_dir. rewrite process_loop_stop by lia.
    unfold done, files. now rewrite Nat.sub_0_r. }
  split; [exact Hrun|]. split; [|split; [|split]].
  - rewrite (process_videos_run w p None Hne Hdir) by reflexivity.
    fold files N out_dir. unfold done.
    rewrite <- (take_drop t files) at 2.
    rewrite items_trace_app, <- app_assoc. now apply prefix_app_r.
  - rewrite Hrun. apply Forall_app. split.
    + apply items_trace_not_finished.
    + repeat constructor.
  - intros f Hf. rewrite Hrun, files_written_app in Hf. simpl in Hf.
    rewrite app_nil_r in Hf.
    destruct (files_written_items _ _ _ _ _ _ _ Hf) as (k & path & Hk & ->).
    exists k, path. pose proof (lookup_lt_Some _ _ _ Hk) as Hlt.
    rewrite length_take in Hlt. rewrite lookup_take_lt in Hk by lia.
    repeat split; [lia|exact Hk].
  - intros k video_path Hk Hlookup Hok.
    assert (Htake : take t files !! k = Some video_path)
      by now rewrite lookup_take_lt.
    rewrite Hrun, files_written_app, elem_of_app. left. unfold done.
    rewrite (items_trace_lookup w p out_dir N 0 _ k video_path Htake).
    rewrite !files_written_app, files_written_item. simpl. rewrite Hok.
    rewrite !elem_of_app. right. left. apply list_elem_of_singleton. reflexivity.
Qed.

Lemma cancellation_at_poll_witness :
  let p := Demo.job ["a.mp4"; "b.avi"; "c.mov"; "d.mkv"; "e.flv"] 1
             (Some "logo.png") None false in
  files_written (process_videos Demo.world p (Some 2%nat))
  = ["out/a_processed.mp4"; "out/b_processed.avi"]
  ∧ process_videos Demo.world p (Some 2%nat)
    = items_trace Demo.world p "out" 5 0 ["a.mp4"; "b.avi"]
      ++ [error_occurred MsgUserInterrupt].
Proof.
  intros p. split; [vm_compute; reflexivity|].
  refine (proj1 (cancellation_at_poll Demo.world p 2 eq_refl _)).
  simpl. lia.
Defined.

(** C7 as stated fails for a flag set after the last poll: with one file
    and [stop()] called while that file is processed, no poll follows, the
    run is the uninterrupted run, it ends with the completion signal and
    reports no interruption. *)
Lemma stop_after_last_poll_completes :
  let p := Demo.job ["a.mp4"] 1 (Some "logo.png") None false in
  process_videos Demo.world p (Some 1%nat) = process_videos Demo.world p None
  ∧ last (process_videos Demo.world p (Some 1%nat))
    = Some (processing_finished (MsgAllDone 1))
  ∧ existsb is_interrupt (process_videos Demo.world p (Some 1%nat)) = false
  ∧ files_written (process_videos Demo.world p (Some 1%nat)) = ["out/a_processed.mp4"].
Proof.
  intros p. repeat split; vm_compute; reflexivity.
Qed.

(** *** The composite of the export *)

(** An item whose body returns has written the composite of the black
    background, the clip moved down by the clamped offset and the overlay
    layers at their given positions, at the size of the clip. *)
Lemma export_composite w p out_dir idx total video_path :
  (item_body w p out_dir idx total video_path).2 = Ok tt →
  ∃ clip layers,
    VideoFileClip w video_path = Ok clip
    ∧ export_layers p clip layers
    ∧ file_written (write_args out_dir video_path clip layers)
      ∈ process_item w p out_dir idx total video_path
    ∧ final_size (write_args out_dir video_path clip layers) = size clip.
Proof.
  intros Hok.
  destruct (item_body_cases w p out_dir idx total video_path)
    as [(e & _ & Hb)|(clip & evs & layers & Hopen & _ & Hlayers & [(e & _ & Hb)|(_ & Hb)])];
    try (rewrite Hb in Hok; discriminate Hok).
  exists clip, layers. split; [exact Hopen|]. split; [exact Hlayers|].
  split; [|reflexivity].
  rewrite (process_item_ok _ _ _ _ _ _ tt) by exact Hok. rewrite Hb. simpl.
  repeat (rewrite elem_of_cons || rewrite elem_of_app). auto 10.
Qed.

(** *** C8 *)

(** C8 (amended): an item whose body returns has written exactly one
    output file, directly in the output directory, named by the root of the
    source's base name, ["_processed"] and the source's extension, at the
    frame rate of the source clip, and always with video codec ["libx264"]
    and audio codec ["aac"], whatever the extension. *)
Theorem write_step_contract w p out_dir idx total video_path :
  (item_body w p out_dir idx total video_path).2 = Ok tt →
  ∃ clip layers,
    VideoFileClip w video_path = Ok clip
    ∧ let call := write_args out_dir video_path clip layers in
      let root := (splitext (basename video_path)).1 in
      let ext := (splitext (basename video_path)).2 in
      let name := root +:+ "_processed" +:+ ext in
      write_videofile w call = Ok tt
      ∧ file_written call ∈ process_item w p out_dir idx total video_path
      ∧ files_written (process_item w p out_dir idx total video_path)
        = [output_file call]
      ∧ root +:+ ext = basename video_path
      ∧ occurs "/" name = false
      ∧ output_file call
        = (if (slen out_dir =? 0) || endswith_slash out_dir
           then out_dir +:+ name else out_dir +:+ "/" +:+ name)
      ∧ write_fps call = fps clip
      ∧ codec call = "libx264" ∧ audio_codec call = "aac".
Proof.
  intros Hok.
  destruct (item_body_cases w p out_dir idx total video_path)
    as [(e & _ & Hb)|(clip & evs & layers & Hopen & Hlogs & _ & [(e & _ & Hb)|(Hw & Hb)])];
    try (rewrite Hb in Hok; discriminate Hok).
  exists clip, layers. split; [exact Hopen|]. cbv zeta.
  destruct (output_path_in_dir out_dir video_path) as [Hname Hpath].
  split; [exact Hw|]. split; [|split; [|split; [|split; [|split]]]].
  - rewrite (process_item_ok _ _ _ _ _ _ tt) by exact Hok. rewrite Hb. simpl.
    repeat (rewrite elem_of_cons || rewrite elem_of_app). auto 10.
  - rewrite files_written_item, Hok. reflexivity.
  - apply splitext_append.
  - exact Hname.
  - exact Hpath.
  - repeat split.
Qed.

Lemma write_step_contract_witness :
  ∃ clip layers,
    VideoFileClip Demo.world "videos/lesson 1.mov" = Ok clip
    ∧ files_written (process_item Demo.world
                       (Demo.job ["videos/lesson 1.mov"] 1 None None false)
                       "out" 0 1 "videos/lesson 1.mov")
      = [output_file (write_args "out" "videos/lesson 1.mov" clip layers)]
    ∧ output_file (write_args "out" "videos/lesson 1.mov" clip layers)
      = "out/lesson 1_processed.mov".
Proof.
  assert (Hok : (item_body Demo.world
                   (Demo.job ["videos/lesson 1.mov"] 1 None None false)
                   "out" 0 1 "videos/lesson 1.mov").2 = Ok tt)
    by (vm_compute; reflexivity).
  destruct (write_step_contract Demo.world
              (Demo.job ["videos/lesson 1.mov"] 1 None None false)
              "out" 0 1 "videos/lesson 1.mov" Hok)
    as (clip & layers & Hopen & _ & _ & Hfiles & _).
  exists clip, layers. split; [exact Hopen|]. split; [exact Hfiles|].
  vm_compute. reflexivity.
Defined.

(** C8 as stated fails: the codec does not depend on the extension, and an
    input that raises has no output file.  Of three inputs, the [.mp4] and
    the [.avi] are both written with ["libx264"] and ["aac"], and the one
    that does not open is not written. *)
Lemma codec_ignores_extension :
  written_with
    (process_videos Demo.world
       (Demo.job ["a.mp4"; "broken.mp4"; "b.avi"] 1 None None false) None)
  = [("out/a_processed.mp4", "libx264", "aac");
     ("out/b_processed.avi", "libx264", "aac")].
Proof. vm_compute. reflexivity. Qed.

(** * Further properties of the compositor and the worker *)

(** ** The shift outside its intended range *)

(** X1: when the clamped offset [o' = min o (H - 10)] is negative (a frame
    of fewer than 10 rows, or a negative offset) numpy counts it from the
    end of the frame: for a frame of the size of the clip the shift returns
    the source frame unshifted when [-o'] is at least the height, and
    otherwise the assignment of the [H] source rows to the last [-o'] rows
    raises. *)
Theorem shift_with_negative_offset frame W H o :
  has_shape frame H W 3 → 0 < W → Z.min o (H - 10) < 0 →
  (H ≤ - Z.min o (H - 10) → moved_frame frame W H o = Ok frame)
  ∧ (- Z.min o (H - 10) < H →
     moved_frame frame W H o
     = Raise (broadcast_error [H; W; 3] [- Z.min o (H - 10); W; 3])).
Proof.
  intros Hshape HW Hneg. pose proof Hshape as [Hrows _].
  assert (HH : 0 ≤ H) by (unfold rows in Hrows; lia).
  rewrite (moved_frame_rect frame H W H o) by (assumption || lia).
  set (o' := Z.min o (H - 10)) in *.
  assert (Hstart : slice_index H o' = Z.max 0 (o' + H)).
  { unfold slice_index. destruct (Z.ltb_spec o' 0); lia. }
  rewrite Hstart, Hrows, (slice_index_nonneg H (H - o')) by lia.
  rewrite Z.min_r by lia.
  assert (Hsrc : take (Z.to_nat H) frame = frame).
  { apply take_ge. unfold rows in Hrows. lia. }
  rewrite Hsrc, Hrows. unfold broadcastable. split; intros Hcase.
  - rewrite Z.max_l by lia. rewrite Z.sub_0_r, Z.eqb_refl. simpl.
    now rewrite stretch_same.
  - rewrite Z.max_r by lia.
    destruct (Z.eqb_spec H (H - (o' + H))) as [Heq|_]; [lia|].
    destruct (Z.eqb_spec H 1) as [Heq|_]; [lia|]. simpl.
    destruct (shape_dims frame H W 3 Hshape) as (_ & Hcols & Hch); [lia..|].
    unfold shape. rewrite Hrows, Hcols, Hch.
    replace (H - (o' + H)) with (- o') by lia. reflexivity.
Qed.

Lemma shift_with_negative_offset_witness :
  moved_frame (Demo.frame 5 4) 4 5 3 = Ok (Demo.frame 5 4)
  ∧ moved_frame (Demo.frame 9 4) 4 9 3
    = Raise "could not broadcast input array from shape (9,4,3) into shape (1,4,3)".
Proof.
  assert (H5 : has_shape (Demo.frame 5 4) 5 4 3)
    by (apply (bool_decide_unpack _); vm_compute; exact I).
  assert (H9 : has_shape (Demo.frame 9 4) 9 4 3)
    by (apply (bool_decide_unpack _); vm_compute; exact I).
  split.
  - apply (shift_with_negative_offset (Demo.frame 5 4) 4 5 3 H5);
      [reflexivity | reflexivity | vm_compute; discriminate].
  - apply (shift_with_negative_offset (Demo.frame 9 4) 4 9 3 H9);
      [reflexivity | reflexivity | reflexivity].
Defined.

(** X2: on a frame of the size of the clip and of at least 10 rows, offset
    0 leaves the frame as it is, and every offset of [H - 10] or more gives
    the same frame: [H - 10] black rows above the first ten rows of the
    source. *)
Theorem shift_identity_and_saturation frame W H o :
  10 ≤ H → has_shape frame H W 3 →
  moved_frame frame W H 0 = Ok frame
  ∧ (H - 10 ≤ o →
     moved_frame frame W H o
     = Ok (take (Z.to_nat (H - 10)) (zeros H W 3) ++ take 10 frame)).
Proof.
  intros HH Hshape. pose proof Hshape as [Hrows _]. split.
  - rewrite moved_frame_eq by (assumption || lia).
    rewrite Z.min_l by lia. simpl. rewrite Z.sub_0_r.
    f_equal. apply take_ge. unfold rows in Hrows. lia.
  - intros Ho. rewrite moved_frame_eq by (assumption || lia).
    rewrite Z.min_r by lia.
    replace (H - (H - 10)) with 10 by lia. reflexivity.
Qed.

Lemma shift_identity_and_saturation_witness :
  moved_frame (Demo.frame 12 4) 4 12 0 = Ok (Demo.frame 12 4)
  ∧ moved_frame (Demo.frame 12 4) 4 12 500
    = Ok (take 2 (zeros 12 4 3) ++ take 10 (Demo.frame 12 4)).
Proof.
  assert (Hshape : has_shape (Demo.frame 12 4) 12 4 3)
    by (apply (bool_decide_unpack _); vm_compute; exact I).
  split.
  - apply (shift_identity_and_saturation (Demo.frame 12 4) 4 12 0); [lia|exact Hshape].
  - apply (shift_identity_and_saturation (Demo.frame 12 4) 4 12 500);
      [lia|exact Hshape|lia].
Defined.

(** Whenever the shift returns, for any offset, the frame has the shape of
    the source. *)
Lemma moved_frame_shape frame W H o moved :
  has_shape frame H W 3 → moved_frame frame W H o = Ok moved → has_shape moved H W 3.
Proof.
  intros Hshape. pose proof Hshape as [Hrows Hall].
  assert (HH : 0 ≤ H) by (unfold rows in Hrows; lia).
  destruct (Z.ltb_spec W 0) as [HW|HW].
  { unfold moved_frame.
    replace ((H <? 0) || (W <? 0)) with true by (symmetry; zbool; lia).
    discriminate. }
  rewrite (moved_frame_rect frame H W H o) by assumption. rewrite Hrows.
  set (o' := Z.min o (H - 10)).
  set (start := slice_index H o').
  set (src := take (Z.to_nat (slice_index H (H - o'))) frame).
  assert (Hstart : 0 ≤ start ≤ H).
  { unfold start, slice_index. destruct (Z.ltb_spec o' 0); lia. }
  assert (Hz : length (take (Z.to_nat start) (zeros H W 3)) = Z.to_nat start).
  { rewrite length_take. unfold zeros. rewrite length_replicate. lia. }
  assert (Hzs : Forall (λ row, Z.of_nat (length row) = W
                         ∧ Forall (λ p : list Z, Z.of_nat (length p) = 3) row)
                  (take (Z.to_nat start) (zeros H W 3))).
  { apply Forall_take. apply (has_shape_zeros H W); lia. }
  assert (Hsrc : Forall (λ row, Z.of_nat (length row) = W
                          ∧ Forall (λ p : list Z, Z.of_nat (length p) = 3) row) src).
  { apply Forall_take. exact Hall. }
  unfold broadcastable.
  destruct (Z.eqb_spec (rows src) (H - start)) as [Hn|Hn]; simpl.
  - intros [= <-]. rewrite stretch_same by exact Hn. split.
    + unfold rows in *. rewrite length_app, Hz. lia.
    + apply Forall_app. now split.
  - destruct (Z.eqb_spec (rows src) 1) as [H1|H1]; [|discriminate].
    intros [= <-].
    destruct src as [|row0 [|? ?]];
      [discriminate H1| |unfold rows in H1; simpl in H1; lia].
    simpl. split.
    + unfold rows. rewrite length_app, Hz, length_replicate. lia.
    + apply Forall_app. split; [exact Hzs|]. apply Forall_replicate.
      apply Forall_cons in Hsrc as [Hrow0 _]. exact Hrow0.
Qed.

(** ** How overlays compose *)

Lemma cols_update_region f y x h w g : cols (update_region f y x h w g) = cols f.
Proof.
  unfold update_region. destruct f as [|row f']; [reflexivity|].
  simpl. destruct (_ && _); [|reflexivity]. now rewrite length_imap.
Qed.

Lemma update_region_ext_all f y x h w g1 g2 :
  (∀ r c p, g1 r c p = g2 r c p) →
  update_region f y x h w g1 = update_region f y x h w g2.
Proof.
  intros Hg. unfold update_region. apply imap_ext. intros i row _.
  destruct (_ && _); [|reflexivity]. apply imap_ext. intros j p _.
  destruct (_ && _); [|reflexivity]. apply Hg.
Qed.

(** Two updates of the same region are one update. *)
Lemma update_region_twice f y x h w g1 g2 :
  update_region (update_region f y x h w g1) y x h w g2
  = update_region f y x h w (λ r c p, g2 r c (g1 r c p)).
Proof.
  unfold update_region at 1. rewrite rows_update_region, cols_update_region.
  unfold update_region. apply list_eq. intros i. rewrite !list_lookup_imap.
  destruct (f !! i) as [row|]; simpl; [|reflexivity]. f_equal.
  destruct (_ && _); [|reflexivity].
  apply list_eq. intros j. rewrite !list_lookup_imap.
  destruct (row !! j) as [p|]; simpl; [|reflexivity]. f_equal.
  now destruct (_ && _).
Qed.

(** Updates of two regions that are apart can be done in either order. *)
Lemma update_region_comm f y1 x1 h1 w1 g1 y2 x2 h2 w2 g2 :
  0 ≤ y1 → 0 ≤ x1 → 0 ≤ h1 → 0 ≤ w1 → 0 ≤ y2 → 0 ≤ x2 → 0 ≤ h2 → 0 ≤ w2 →
  y1 + h1 ≤ y2 ∨ y2 + h2 ≤ y1 ∨ x1 + w1 ≤ x2 ∨ x2 + w2 ≤ x1 →
  update_region (update_region f y1 x1 h1 w1 g1) y2 x2 h2 w2 g2
  = update_region (update_region f y2 x2 h2 w2 g2) y1 x1 h1 w1 g1.
Proof.
  intros Hy1 Hx1 Hh1 Hw1 Hy2 Hx2 Hh2 Hw2 Hapart.
  unfold update_region at 1 3. rewrite !rows_update_region, !cols_update_region.
  unfold update_region. rewrite !slice_index_nonneg by lia.
  apply list_eq. intros i. rewrite !list_lookup_imap.
  destruct (f !! i) as [row|]; simpl; [|reflexivity]. f_equal.
  destruct ((_ <=? _) && (_ <? Z.min (y1 + h1) _)) eqn:Hr1;
    destruct ((_ <=? _) && (_ <? Z.min (y2 + h2) _)) eqn:Hr2;
    rewrite ?Hr1, ?Hr2; try reflexivity.
  apply list_eq. intros j. rewrite !list_lookup_imap.
  destruct (row !! j) as [p|]; simpl; [|reflexivity]. f_equal.
  destruct ((_ <=? _) && (_ <? Z.min (x1 + w1) _)) eqn:Hc1;
    destruct ((_ <=? _) && (_ <? Z.min (x2 + w2) _)) eqn:Hc2;
    rewrite ?Hc1, ?Hc2; try reflexivity.
  exfalso. zbool. lia.
Qed.

(** A returning [composite] is an update of the placement rectangle by a
    function of the old pixel that keeps its number of channels; on any
    frame with the same numbers of rows and columns it returns the same
    update. *)
Lemma composite_as_update cv2_resize moved img pl out :
  composite cv2_resize moved img pl = Ok out →
  ∃ g, (∀ r c p, length (g r c p) = length p)
    ∧ (g = (λ _ _ p, p)
       ∨ (∃ r0, cv2_resize img (img_w pl) (img_h pl) = Ok r0 ∧ chans r0 = 4
                ∧ g = (λ r c p, blend_pixel (src_pixel r0 r c) p))
       ∨ (∃ r0, cv2_resize img (img_w pl) (img_h pl) = Ok r0 ∧ chans r0 ≠ 4
                ∧ g = (λ r c p, opaque_pixel (src_pixel r0 r c) p)))
    ∧ ∀ m', rows m' = rows moved → cols m' = cols moved →
        composite cv2_resize m' img pl
        = Ok (update_region m' (y_pos pl) (x_pos pl) (img_h pl) (img_w pl) g).
Proof.
  intros Hc. unfold composite in Hc.
  destruct ((img_w pl >? 0) && (img_h pl >? 0)) eqn:Hdraw.
  2:{ exists (λ _ _ p, p). split; [reflexivity|]. split; [now left|].
      intros m' _ _. unfold composite. rewrite Hdraw.
      now rewrite update_region_same. }
  destruct (cv2_resize img (img_w pl) (img_h pl)) as [r0|e] eqn:Hres; [|discriminate].
  destruct (Z.eqb_spec (chans r0) 1) as [Hgrey|Hgrey]; [discriminate|].
  destruct (Z.eqb_spec (chans r0) 4) as [Hch|Hch].
  - destruct (broadcastable _ _ && broadcastable _ _) eqn:Hfits in Hc;
      [|destruct (_ && _) in Hc; discriminate].
    exists (λ r c p, blend_pixel (src_pixel r0 r c) p).
    split; [intros; apply length_blend_pixel|]. split.
    { right. left. now exists r0. }
    intros m' Hrows Hcols. unfold composite.
    rewrite Hdraw, Hres, Hrows, Hcols, Hfits.
    destruct (Z.eqb_spec (chans r0) 1); [contradiction|].
    destruct (Z.eqb_spec (chans r0) 4); [reflexivity|contradiction].
  - destruct (_ && _ && _) eqn:Hfits in Hc; [|discriminate].
    exists (λ r c p, opaque_pixel (src_pixel r0 r c) p).
    split; [intros; apply length_opaque_pixel|]. split.
    { right. right. now exists r0. }
    intros m' Hrows Hcols. unfold composite.
    rewrite Hdraw, Hres, Hrows, Hcols, Hfits.
    destruct (Z.eqb_spec (chans r0) 1); [contradiction|].
    destruct (Z.eqb_spec (chans r0) 4); [contradiction|reflexivity].
Qed.

(** X3: two overlays whose rectangles are apart can be composited in
    either order: when each is drawn on the frame without an exception,
    drawing the second on the result of the first and the first on the
    result of the second give the same frame. *)
Theorem apart_overlays_commute cv2_resize moved img1 pl1 img2 pl2 m1 m2 :
  placed pl1 → placed pl2 → apart pl1 pl2 →
  composite cv2_resize moved img1 pl1 = Ok m1 →
  composite cv2_resize moved img2 pl2 = Ok m2 →
  ∃ m, composite cv2_resize m1 img2 pl2 = Ok m
       ∧ composite cv2_resize m2 img1 pl1 = Ok m.
Proof.
  intros (Hx1 & Hy1 & Hw1 & Hh1) (Hx2 & Hy2 & Hw2 & Hh2) Hapart Hc1 Hc2.
  destruct (composite_as_update _ _ _ _ _ Hc1) as (g1 & _ & _ & Hall1).
  destruct (composite_as_update _ _ _ _ _ Hc2) as (g2 & _ & _ & Hall2).
  pose proof (Hall1 moved eq_refl eq_refl) as Hm1. rewrite Hc1 in Hm1.
  pose proof (Hall2 moved eq_refl eq_refl) as Hm2. rewrite Hc2 in Hm2.
  injection Hm1 as ->. injection Hm2 as ->.
  eexists. split.
  - apply Hall2; [apply rows_update_region|apply cols_update_region].
  - rewrite Hall1 by (apply rows_update_region || apply cols_update_region).
    f_equal. symmetry. apply update_region_comm; assumption.
Qed.

Lemma apart_overlays_commute_witness :
  let moved := Demo.frame 3 4 in
  let pl1 := Placement 0 0 2 2 in
  let pl2 := Placement 2 1 2 1 in
  ∃ m, composite resize_linear
         (overwritten moved (img_frame Demo.badge) pl2) (img_frame Demo.logo) pl1 = Ok m
       ∧ composite resize_linear
           (overwritten moved (img_frame Demo.logo) pl1) (img_frame Demo.badge) pl2 = Ok m.
Proof.
  intros moved pl1 pl2.
  assert (Hp1 : placed pl1) by (unfold placed; simpl; lia).
  assert (Hp2 : placed pl2) by (unfold placed; simpl; lia).
  assert (Hapart : apart pl1 pl2) by (unfold apart; simpl; lia).
  assert (Hc1 : composite resize_linear moved (img_frame Demo.logo) pl1
                = Ok (overwritten moved (img_frame Demo.logo) pl1))
    by (vm_compute; reflexivity).
  assert (Hc2 : composite resize_linear moved (img_frame Demo.badge) pl2
                = Ok (overwritten moved (img_frame Demo.badge) pl2))
    by (vm_compute; reflexivity).
  destruct (apart_overlays_commute resize_linear moved _ pl1 _ pl2 _ _
              Hp1 Hp2 Hapart Hc1 Hc2) as (m & H12 & H21).
  exists m. split; [exact H21|exact H12].
Defined.

Lemma opaque_pixel_twice fgp p :
  opaque_pixel fgp (opaque_pixel fgp p) = opaque_pixel fgp p.
Proof.
  unfold opaque_pixel. apply list_eq. intros j. rewrite !list_lookup_imap.
  now destruct (p !! j).
Qed.

(** X4: compositing a bitmap without an alpha channel is idempotent:
    drawing the same overlay again on the result changes nothing. *)
Theorem opaque_overlay_idempotent cv2_resize moved img pl m1 :
  (∀ r0, cv2_resize img (img_w pl) (img_h pl) = Ok r0 → chans r0 ≠ 4) →
  composite cv2_resize moved img pl = Ok m1 →
  composite cv2_resize m1 img pl = Ok m1.
Proof.
  intros Hrgb Hc.
  destruct (composite_as_update _ _ _ _ _ Hc) as (g & _ & Hg & Hall).
  pose proof (Hall moved eq_refl eq_refl) as Hm1. rewrite Hc in Hm1.
  injection Hm1 as ->.
  rewrite Hall by (apply rows_update_region || apply cols_update_region).
  f_equal. rewrite update_region_twice.
  destruct Hg as [->|[(r0 & Hres & Hch & _)|(r0 & _ & _ & ->)]].
  - reflexivity.
  - destruct (Hrgb r0 Hres Hch).
  - apply update_region_ext_all. intros r c p. apply opaque_pixel_twice.
Qed.

Lemma opaque_overlay_idempotent_witness :
  let moved := Demo.frame 3 4 in
  let pl := Placement 3 0 1 2 in
  let once := overwritten moved [[[205; 206; 207]]; [[225; 226; 227]]] pl in
  composite resize_linear moved (img_frame Demo.logo) pl = Ok once
  ∧ composite resize_linear once (img_frame Demo.logo) pl = Ok once.
Proof.
  intros moved pl once.
  assert (Hc : composite resize_linear moved (img_frame Demo.logo) pl = Ok once)
    by (vm_compute; reflexivity).
  split; [exact Hc|].
  apply (opaque_overlay_idempotent resize_linear moved (img_frame Demo.logo) pl once);
    [|exact Hc].
  intros r0 Hres. vm_compute in Hres. injection Hres as <-. vm_compute. discriminate.
Defined.

(** X5: a bitmap with two channels (grey with alpha) is never drawn: when
    its placement is drawn and the resized bitmap has the size of the
    rectangle, the assignment of line 160 raises, with numpy's message for
    the shapes [(h, w, 2)] and [(h, w, 3)], and no frame is returned. *)
Theorem two_channel_bitmap_raises cv2_resize moved img pl W H img_resized :
  has_shape moved H W 3 → fits_frame pl W H →
  cv2_resize img (img_w pl) (img_h pl) = Ok img_resized →
  has_shape img_resized (img_h pl) (img_w pl) 2 →
  composite cv2_resize moved img pl
  = Raise (broadcast_error [img_h pl; img_w pl; 2] [img_h pl; img_w pl; 3]).
Proof.
  intros Hshape (Hw & Hh & Hx & HxW & Hy & HyH) Hres Hrshape.
  destruct (shape_dims _ _ _ _ Hrshape) as (Hrows & Hcols & Hch); [lia..|].
  destruct (shape_dims _ _ _ _ Hshape) as (HrowsM & HcolsM & _); [lia..|].
  unfold composite. rewrite Hres, Hch, Hrows, Hcols, HrowsM, HcolsM.
  replace ((img_w pl >? 0) && (img_h pl >? 0)) with true by (symmetry; zbool; lia).
  unfold slice_len. rewrite !slice_index_nonneg by lia.
  rewrite !Z.min_l, !Z.max_r by lia.
  replace (y_pos pl + img_h pl - y_pos pl) with (img_h pl) by lia.
  replace (x_pos pl + img_w pl - x_pos pl) with (img_w pl) by lia.
  simpl. now rewrite andb_false_r.
Qed.

Lemma two_channel_bitmap_raises_witness :
  composite resize_linear (Demo.frame 3 4) [[[9; 255]; [8; 0]]] (Placement 0 1 2 1)
  = Raise "could not broadcast input array from shape (1,2,2) into shape (1,2,3)".
Proof.
  apply (two_channel_bitmap_raises resize_linear (Demo.frame 3 4) _
           (Placement 0 1 2 1) 4 3 [[[9; 255]; [8; 0]]]).
  - apply (bool_decide_unpack _). vm_compute. exact I.
  - unfold fits_frame. simpl. lia.
  - reflexivity.
  - apply (bool_decide_unpack _). vm_compute. exact I.
Defined.

(** ** What a preview emits *)

Lemma composite_shape cv2_resize moved img pl out H W :
  has_shape moved H W 3 → composite cv2_resize moved img pl = Ok out →
  has_shape out H W 3.
Proof.
  intros Hshape Hc.
  destruct (composite_as_update _ _ _ _ _ Hc) as (g & Hlen & _ & Hall).
  pose proof (Hall moved eq_refl eq_refl) as Hout. rewrite Hc in Hout.
  injection Hout as ->. now apply has_shape_update_region.
Qed.

(** What the body of an overlay block returns is the frame it got or a
    frame [composite] returned for it. *)
Lemma overlay_body_result w n path x y scale W H moved f :
  (overlay_body w n path x y scale W H moved).2 = Ok f →
  f = moved ∨ ∃ img pl, composite (cv2_resize w) moved img pl = Ok f.
Proof.
  unfold overlay_body. destruct (present w path); [|intros [= <-]; now left].
  destruct (ImageClip w _) as [header_img|e]; [|discriminate].
  rewrite bind_lift_ok.
  destruct (target_height _ _ _ _) as [th|e]; [|discriminate].
  rewrite bind_lift_ok.
  destruct (resize w header_img _) as [resized|e]; [|discriminate].
  rewrite bind_lift_ok.
  destruct (composite _ _ _ _) as [moved'|e] eqn:Hc; [|discriminate].
  rewrite bind_lift_ok. run_M. intros [= <-]. right. eauto.
Qed.

Lemma surviving_shape w n path x y scale W H moved :
  has_shape moved H W 3 →
  has_shape (surviving (overlay_body w n path x y scale W H moved) moved) H W 3.
Proof.
  intros Hshape. unfold surviving.
  destruct (overlay_body _ _ _ _ _ _ _ _ _).2 as [f|e] eqn:Hbody; [|exact Hshape].
  destruct (overlay_body_result _ _ _ _ _ _ _ _ _ _ Hbody) as [->|(img & pl & Hc)].
  - exact Hshape.
  - exact (composite_shape _ _ _ _ _ _ _ Hshape Hc).
Qed.

(** The signals of a preview whose clip opens but whose frame cannot be
    read or shifted. *)
Lemma process_preview_failed w p video_path rest clip :
  video_files p = video_path :: rest →
  VideoFileClip w video_path = Ok clip →
  (∃ e, get_frame clip (frame_time clip) = Raise e)
  ∨ (∃ frame e, get_frame clip (frame_time clip) = Ok frame
                ∧ moved_frame frame (size clip).1 (size clip).2 (offset p) = Raise e) →
  ∃ e, process_preview w p
       = [error_occurred (MsgLoaded (basename video_path));
          error_occurred (MsgSize (size clip));
          error_occurred (MsgPreviewError e)].
Proof.
  intros Hfiles Hopen Hfail.
  rewrite process_preview_unfold, Hfiles, Hopen. unfold preview_of_clip.
  destruct (size clip) as [video_width video_height]. cbn [fst snd] in Hfail.
  destruct Hfail as [(e & Hframe)|(frame & e & Hframe & Hmoved)]; exists e.
  - now rewrite Hframe, bind_lift_raise.
  - now rewrite Hframe, bind_lift_ok, Hmoved, bind_lift_raise.
Qed.

(** X6: a preview emits log lines and then at most one frame, as its last
    signal; it reports no progress, no completion, and writes no file. *)
Theorem preview_emits_logs_then_frame w p :
  ∃ logs,
    Forall (λ e, is_log e = true) logs
    ∧ (process_preview w p = logs
       ∨ ∃ out, process_preview w p = logs ++ [preview_frame_ready out])
    ∧ files_written (process_preview w p) = [].
Proof.
  assert (Hform : ∃ logs, Forall (λ e, is_log e = true) logs
                   ∧ (process_preview w p = logs
                      ∨ ∃ out, process_preview w p = logs ++ [preview_frame_ready out])).
  { destruct (video_files p) as [|video_path rest] eqn:Hfiles.
    { exists [error_occurred MsgNoVideo]. split; [repeat constructor|].
      left. now rewrite process_preview_unfold, Hfiles. }
    destruct (VideoFileClip w video_path) as [clip|e] eqn:Hopen.
    2:{ exists [error_occurred (MsgOpenFailed e)]. split; [repeat constructor|].
        left. now rewrite process_preview_unfold, Hfiles, Hopen. }
    destruct (get_frame clip (frame_time clip)) as [frame|e] eqn:Hframe.
    2:{ destruct (process_preview_failed w p video_path rest clip Hfiles Hopen)
          as (e' & ->); [left; now exists e|].
        eexists. split; [|left; reflexivity]. repeat constructor. }
    destruct (moved_frame frame (size clip).1 (size clip).2 (offset p))
      as [moved|e] eqn:Hmoved.
    2:{ destruct (process_preview_failed w p video_path rest clip Hfiles Hopen)
          as (e' & ->); [right; now exists frame, e|].
        eexists. split; [|left; reflexivity]. repeat constructor. }
    pose proof (process_preview_eq w p video_path rest clip frame moved
                  Hfiles Hopen Hframe Hmoved) as Heq. cbv zeta in Heq.
    eexists. split; [|right; eexists; rewrite Heq, !app_assoc; reflexivity].
    repeat apply Forall_app_2; try apply overlay_block_logs. repeat constructor. }
  destruct Hform as (logs & Hlogs & Hrun). exists logs.
  split; [exact Hlogs|]. split; [exact Hrun|].
  destruct Hrun as [->|(out & ->)].
  - now apply files_written_logs.
  - rewrite files_written_app, (files_written_logs logs Hlogs). reflexivity.
Qed.

(** X7: when the clip opens and its frame has the size of the clip, every
    frame a preview emits has that size: neither the shift, for any offset,
    nor an overlay, drawn or failed, changes the dimensions. *)
Theorem preview_frame_keeps_size w p video_path rest clip frame :
  video_files p = video_path :: rest →
  VideoFileClip w video_path = Ok clip →
  get_frame clip (frame_time clip) = Ok frame →
  has_shape frame (size clip).2 (size clip).1 3 →
  ∀ out, preview_frame_ready out ∈ process_preview w p →
         has_shape out (size clip).2 (size clip).1 3.
Proof.
  intros Hfiles Hopen Hframe Hshape out Hin.
  destruct (moved_frame frame (size clip).1 (size clip).2 (offset p))
    as [moved|e] eqn:Hmoved.
  2:{ destruct (process_preview_failed w p video_path rest clip Hfiles Hopen)
        as (e' & Heq); [right; now exists frame, e|].
      rewrite Heq in Hin.
      repeat (apply elem_of_cons in Hin as [Hin|Hin]; [discriminate Hin|]).
      inversion Hin. }
  pose proof (moved_frame_shape _ _ _ _ _ Hshape Hmoved) as Hmshape.
  rewrite (process_preview_eq w p video_path rest clip frame moved
             Hfiles Hopen Hframe Hmoved) in Hin. cbv zeta in Hin.
  assert (Hnolog : ∀ logs, Forall (λ e, is_log e = true) logs →
                           preview_frame_ready out ∉ logs).
  { intros logs Hlogs Hmem. rewrite Forall_forall in Hlogs.
    specialize (Hlogs _ Hmem). discriminate Hlogs. }
  apply elem_of_app in Hin as [Hin|Hin].
  { repeat (apply elem_of_cons in Hin as [Hin|Hin]; [discriminate Hin|]).
    inversion Hin. }
  apply elem_of_app in Hin as [Hin|Hin];
    [destruct (Hnolog _ (overlay_block_logs _ _ _ _ _ _ _ _ _) Hin)|].
  apply elem_of_app in Hin as [Hin|Hin];
    [destruct (Hnolog _ (overlay_block_logs _ _ _ _ _ _ _ _ _) Hin)|].
  apply list_elem_of_singleton in Hin. injection Hin as ->.
  apply surviving_shape. now apply surviving_shape.
Qed.

Lemma preview_frame_keeps_size_witness :
  let p := Demo.job ["a.mp4"] 700 None None true in
  let out := take 2 (zeros 12 4 3) ++ take 10 (Demo.frame 12 4) in
  preview_frame_ready out ∈ process_preview Demo.world p ∧ has_shape out 12 4 3.
Proof.
  intros p out.
  assert (Hfiles : video_files p = ["a.mp4"]) by reflexivity.
  assert (Hopen : VideoFileClip Demo.world "a.mp4" = Ok (Demo.clip 4 12))
    by (vm_compute; reflexivity).
  assert (Hframe : get_frame (Demo.clip 4 12) (frame_time (Demo.clip 4 12))
                   = Ok (Demo.frame 12 4)) by reflexivity.
  assert (Hshape : has_shape (Demo.frame 12 4) 12 4 3)
    by (apply (bool_decide_unpack _); vm_compute; exact I).
  assert (Hin : preview_frame_ready out ∈ process_preview Demo.world p).
  { assert (Hrun : process_preview Demo.world p
                   = [error_occurred (MsgLoaded "a.mp4");
                      error_occurred (MsgSize (4, 12)); preview_frame_ready out])
      by (vm_compute; reflexivity).
    rewrite Hrun, !elem_of_cons. auto. }
  split; [exact Hin|].
  exact (preview_frame_keeps_size Demo.world p "a.mp4" [] (Demo.clip 4 12)
           (Demo.frame 12 4) Hfiles Hopen Hframe Hshape out Hin).
Defined.

(** ** The batch as a whole *)

(** X8: a stop request that arrives after the last poll, that is after
    the poll of the last file, changes nothing: the run is the run without
    a stop request. *)
Theorem late_stop_has_no_effect w p t :
  (length (video_files p) ≤ t)%nat →
  process_videos w p (Some t) = process_videos w p None.
Proof.
  intros Ht. unfold process_videos.
  destruct (video_files p) as [|video_path rest] eqn:Hfiles; [reflexivity|].
  destruct (truthy (output_dir p)); [|reflexivity].
  rewrite !process_loop_run; [reflexivity|reflexivity|].
  intros i Hi. simpl. apply bool_decide_eq_false. lia.
Qed.

Lemma late_stop_has_no_effect_witness :
  let p := Demo.job ["a.mp4"; "broken.mp4"; "b.avi"] 1 None None false in
  process_videos Demo.world p (Some 3%nat) = process_videos Demo.world p None.
Proof.
  intros p. apply late_stop_has_no_effect. simpl. lia.
Defined.

Lemma files_written_loop w p out_dir stop_at total idx files :
  files_written (process_loop w p out_dir stop_at total idx files)
  `sublist_of` map (output_path out_dir) files.
Proof.
  revert idx. induction files as [|video_path files IH]; intros idx; simpl.
  - constructor.
  - destruct (stopped stop_at idx); [apply sublist_nil_l|].
    rewrite files_written_app, files_written_item.
    change (output_path out_dir video_path :: map (output_path out_dir) files)
      with ([output_path out_dir video_path] ++ map (output_path out_dir) files).
    apply sublist_app; [|apply IH].
    destruct (item_body _ _ _ _ _ _).2; [reflexivity|apply sublist_nil_l].
Qed.

Lemma written_paths_app evs1 evs2 :
  written_paths (evs1 ++ evs2) = written_paths evs1 ++ written_paths evs2.
Proof. unfold written_paths. apply omap_app. Qed.

Lemma written_paths_logs evs :
  Forall (λ e, is_log e = true) evs → written_paths evs = [].
Proof.
  induction 1 as [|e evs He _ IH]; [reflexivity|].
  destruct e; try discriminate He. exact IH.
Qed.

(** The write call of an item that returned names the output path of its
    input and the temporary audio file of the output directory. *)
Lemma written_paths_item w p out_dir total idx video_path :
  written_paths (process_item w p out_dir idx total video_path)
  = match (item_body w p out_dir idx total video_path).2 with
    | Ok _ => [(output_path out_dir video_path, join out_dir "temp-audio.m4a", true)]
    | Raise _ => []
    end.
Proof.
  destruct (item_body_cases w p out_dir idx total video_path)
    as [(e & _ & Hb)|(clip & evs & layers & _ & Hlogs & _ & [(e & _ & Hb)|(_ & Hb)])].
  - rewrite (process_item_raise _ _ _ _ _ _ e) by now rewrite Hb. rewrite Hb. reflexivity.
  - rewrite (process_item_raise _ _ _ _ _ _ e) by now rewrite Hb. rewrite Hb. simpl.
    rewrite written_paths_app. now rewrite (written_paths_logs evs Hlogs).
  - rewrite (process_item_ok _ _ _ _ _ _ tt) by now rewrite Hb. rewrite Hb. simpl.
    rewrite written_paths_app. now rewrite (written_paths_logs evs Hlogs).
Qed.

Lemma written_paths_loop w p out_dir stop_at total idx files :
  written_paths (process_loop w p out_dir stop_at total idx files)
  `sublist_of` map (λ v, (output_path out_dir v, join out_dir "temp-audio.m4a", true))
                 files.
Proof.
  revert idx. induction files as [|video_path files IH]; intros idx; simpl.
  - constructor.
  - destruct (stopped stop_at idx); [apply sublist_nil_l|].
    rewrite written_paths_app, written_paths_item.
    match goal with
    | |- _ `sublist_of` ?x :: ?l => change (x :: l) with ([x] ++ l)
    end.
    apply sublist_app; [|apply IH].
    destruct (item_body _ _ _ _ _ _).2; [reflexivity|apply sublist_nil_l].
Qed.

(** X9: whatever the world does and whenever the run is stopped, the write
    calls that returned are calls for inputs of the run, at most one per
    input and in the order of the inputs; each names the output path of its
    input as output file and, as temporary audio file to be removed,
    [temp-audio.m4a] in the output directory. *)
Theorem outputs_follow_inputs w p stop_at :
  let out_dir := default EmptyString (output_dir p) in
  written_paths (process_videos w p stop_at)
  `sublist_of` map (λ v, (output_path out_dir v, join out_dir "temp-audio.m4a", true))
                 (video_files p)
  ∧ files_written (process_videos w p stop_at)
    `sublist_of` map (output_path out_dir) (video_files p).
Proof.
  intros out_dir. unfold process_videos.
  destruct (video_files p) as [|video_path rest] eqn:Hfiles;
    [split; constructor|].
  destruct (truthy (output_dir p)); [|split; apply sublist_nil_l].
  split; [apply written_paths_loop|apply files_written_loop].
Qed.

Lemma progress_values_app evs1 evs2 :
  progress_values (evs1 ++ evs2) = progress_values evs1 ++ progress_values evs2.
Proof. unfold progress_values. apply omap_app. Qed.

Lemma progress_values_logs evs :
  Forall (λ e, is_log e = true) evs → progress_values evs = [].
Proof.
  induction 1 as [|e evs He _ IH]; [reflexivity|].
  destruct e; try discriminate He. exact IH.
Qed.

(** An item reports progress once, before anything else. *)
Lemma progress_values_item w p out_dir total idx video_path :
  progress_values (process_item w p out_dir idx total video_path)
  = [progress idx total].
Proof.
  destruct (item_body_cases w p out_dir idx total video_path)
    as [(e & _ & Hb)|(clip & evs & layers & _ & Hlogs & _ & [(e & _ & Hb)|(_ & Hb)])].
  - rewrite (process_item_raise _ _ _ _ _ _ e) by now rewrite Hb. rewrite Hb. reflexivity.
  - rewrite (process_item_raise _ _ _ _ _ _ e) by now rewrite Hb. rewrite Hb. simpl.
    rewrite progress_values_app. now rewrite (progress_values_logs evs Hlogs).
  - rewrite (process_item_ok _ _ _ _ _ _ tt) by now rewrite Hb. rewrite Hb. simpl.
    rewrite progress_values_app. now rewrite (progress_values_logs evs Hlogs).
Qed.

Lemma progress_values_items w p out_dir total idx files :
  progress_values (items_trace w p out_dir total idx files)
  = map (λ i, progress (Z.of_nat i) total) (seq idx (length files)).
Proof.
  revert idx. induction files as [|video_path files IH]; intros idx; simpl.
  - reflexivity.
  - now rewrite progress_values_app, progress_values_item, IH.
Qed.

(** X10: a run that no poll interrupts reports progress exactly [N + 1]
    times: [int((idx / N) * 100)] for each index in order, whether the item
    fails or not, and then 100. *)
Theorem progress_sequence w p stop_at :
  video_files p ≠ [] → truthy (output_dir p) = true →
  (∀ i, (i < length (video_files p))%nat → stopped stop_at i = false) →
  let N := length (video_files p) in
  progress_values (process_videos w p stop_at)
  = map (λ i, progress (Z.of_nat i) (Z.of_nat N)) (seq 0 N) ++ [100].
Proof.
  intros Hfiles Hdir Hrun N.
  rewrite (process_videos_run w p stop_at Hfiles Hdir Hrun).
  now rewrite progress_values_app, progress_values_items.
Qed.

Lemma progress_sequence_witness :
  let p := Demo.job ["a.mp4"; "broken.mp4"; "b.avi"] 1 None None false in
  progress_values (process_videos Demo.world p None) = [0; 33; 66; 100].
Proof.
  intros p.
  rewrite (progress_sequence Demo.world p None); [vm_compute; reflexivity|..].
  - discriminate.
  - reflexivity.
  - reflexivity.
Defined.

(** ** The name of the output file *)

Lemma slen_cons d s : slen (String d s) = slen s + 1.
Proof. unfold slen. simpl String.length. lia. Qed.

Lemma slen_nonneg s : 0 ≤ slen s.
Proof. unfold slen. lia. Qed.

Lemma append_assoc_s a b c : (a +:+ b) +:+ c = a +:+ (b +:+ c).
Proof.
  induction a as [|d a IH]; [reflexivity|]. now rewrite !append_cons, IH.
Qed.

Lemma rfind_from_absent c s i : occurs c s = false → rfind_from c s i = -1.
Proof.
  revert i. induction s as [|d t IH]; intros i Hs; [reflexivity|].
  simpl in Hs. apply orb_false_iff in Hs as [Hd Ht].
  simpl. rewrite (IH _ Ht). simpl. now rewrite Hd.
Qed.

(** Appending a string without [c] does not move the last [c]. *)
Lemma rfind_from_append_absent c a b i :
  occurs c b = false → rfind_from c (a +:+ b) i = rfind_from c a i.
Proof.
  intros Hb. revert i. induction a as [|d a IH]; intros i.
  - now apply rfind_from_absent.
  - rewrite append_cons. simpl. now rewrite IH.
Qed.

(** The last [c] of [a ++ c ++ b] is the one between [a] and [b] when [b]
    has none. *)
Lemma rfind_from_append_at c a b i :
  0 ≤ i → occurs c b = false → rfind_from c (a +:+ String c b) i = i + slen a.
Proof.
  intros Hi Hb. revert i Hi. induction a as [|d a IH]; intros i Hi.
  - change ("" +:+ String c b) with (String c b). simpl.
    rewrite (rfind_from_absent _ _ _ Hb). simpl.
    rewrite Ascii.eqb_refl. unfold slen. simpl. lia.
  - rewrite append_cons. simpl. rewrite IH by lia.
    pose proof (slen_nonneg a).
    destruct (Z.leb_spec 0 (i + 1 + slen a)); [|lia].
    rewrite slen_cons. lia.
Qed.

Lemma from_append a b k : 0 ≤ k → from (slen a + k) (a +:+ b) = from k b.
Proof.
  intros Hk. induction a as [|d a IH]; [reflexivity|].
  rewrite append_cons, slen_cons.
  replace (slen a + 1 + k) with (slen a + k + 1) by lia.
  pose proof (slen_nonneg a). now rewrite from_cons by lia.
Qed.

Lemma upto_cons k d s : 0 ≤ k → upto (k + 1) (String d s) = String d (upto k s).
Proof.
  intros Hk. unfold upto. replace (Z.to_nat (k + 1)) with (S (Z.to_nat k)) by lia.
  reflexivity.
Qed.

Lemma upto_0 s : upto 0 s = "".
Proof. unfold upto. now destruct s. Qed.

Lemma upto_append a b : upto (slen a) (a +:+ b) = a.
Proof.
  induction a as [|d a IH].
  - apply upto_0.
  - pose proof (slen_nonneg a). rewrite append_cons, slen_cons, upto_cons by lia.
    now rewrite IH.
Qed.

Lemma upto_append_le a b k : 0 ≤ k ≤ slen a → upto k (a +:+ b) = upto k a.
Proof.
  revert k. induction a as [|d a IH]; intros k Hk.
  - unfold slen in Hk. simpl in Hk. replace k with 0 by lia. now rewrite !upto_0.
  - rewrite slen_cons in Hk. rewrite append_cons.
    destruct (decide (k = 0)) as [->|Hk0]; [now rewrite !upto_0|].
    replace k with (k - 1 + 1) by lia. rewrite !upto_cons by lia.
    now rewrite IH by lia.
Qed.

Lemma all_dots_append a b : all_dots (a +:+ b) = all_dots a && all_dots b.
Proof.
  induction a as [|d a IH]; [reflexivity|].
  rewrite append_cons. simpl. now rewrite IH, andb_assoc.
Qed.

(** At the position [rfind] answers there is a [c]. *)
Lemma from_rfind c s :
  0 ≤ rfind c s → from (rfind c s) s = String c (from (rfind c s + 1) s).
Proof.
  unfold rfind. induction s as [|d t IH]; [simpl; lia|].
  simpl. change (0 + 1) with 1.
  destruct (rfind_from_shift c t 1 0) as [Hnone Hsome]; [lia..|].
  destruct (rfind_from_range c t 1) as [Hr|Hr]; [lia|..].
  - rewrite Hr. simpl. destruct (Ascii.eqb_spec d c) as [->|Hd]; [|lia].
    intros _. change (0 + 1) with 1. rewrite (from_cons 0) by lia.
    now rewrite !from_0.
  - assert (Hne : rfind_from c t 1 ≠ -1) by lia.
    destruct (Z.leb_spec 0 (rfind_from c t 1)); [|lia]. intros _.
    specialize (Hsome Hne).
    replace (rfind_from c t 1) with (rfind_from c t 0 + 1) by lia.
    rewrite !from_cons by lia. apply IH. lia.
Qed.

(** [splitext] on a name without directory separator. *)
Lemma splitext_slashfree p :
  occurs "/" p = false →
  splitext p
  = if (0 <=? rfind "." p) && negb (all_dots (upto (rfind "." p) p))
    then (upto (rfind "." p) p, from (rfind "." p) p)
    else (p, EmptyString).
Proof.
  intros Hp.
  assert (Hsep : rfind "/" p = -1) by (unfold rfind; now apply rfind_from_absent).
  unfold splitext. rewrite Hsep.
  change (-1 + 1) with 0. rewrite Z.sub_0_r, from_0.
  replace (-1 <? rfind "." p) with (0 <=? rfind "." p); [reflexivity|].
  destruct (Z.leb_spec 0 (rfind "." p)), (Z.ltb_spec (-1) (rfind "." p));
    reflexivity || lia.
Qed.

(** The name given to the output file splits back into the root of the
    source name followed by ["_processed"], and the extension of the
    source name. *)
Lemma splitext_processed base :
  occurs "/" base = false →
  splitext ((splitext base).1 +:+ "_processed" +:+ (splitext base).2)
  = ((splitext base).1 +:+ "_processed", (splitext base).2).
Proof.
  intros Hbase.
  destruct (splitext_no_slash _ Hbase) as [Hroot Hext].
  assert (Hname : occurs "/" ((splitext base).1 +:+ "_processed"
                              +:+ (splitext base).2) = false).
  { rewrite !occurs_append, Hroot, Hext. reflexivity. }
  rewrite (splitext_slashfree _ Hname). clear Hroot Hext Hname.
  rewrite (splitext_slashfree _ Hbase).
  set (dot := rfind "." base).
  destruct ((0 <=? dot) && negb (all_dots (upto dot base))) eqn:Hsplit; simpl.
  - apply andb_true_iff in Hsplit as [Hdot Hnot]. apply Z.leb_le in Hdot.
    destruct (rfind_from_range "." base 0) as [Hr|Hr]; [lia|..];
      fold (rfind "." base) in Hr; fold dot in Hr; [lia|].
    pose proof (from_rfind "." base) as Hext. fold dot in Hext.
    rewrite Hext by lia.
    pose proof (occurs_after_rfind "." base) as Hrest. fold dot in Hrest.
    set (rest := from (dot + 1) base) in *.
    set (root := upto dot base) in *.
    rewrite <- (append_assoc_s root "_processed" (String "." rest)).
    assert (Hdot' : rfind "." ((root +:+ "_processed") +:+ String "." rest)
                    = slen (root +:+ "_processed")).
    { unfold rfind. rewrite rfind_from_append_at by (lia || assumption). lia. }
    rewrite Hdot'.
    pose proof (slen_nonneg (root +:+ "_processed")).
    replace (0 <=? slen (root +:+ "_processed")) with true
      by (symmetry; apply Z.leb_le; lia).
    rewrite upto_append, all_dots_append.
    replace (all_dots "_processed") with false by reflexivity.
    rewrite andb_false_r. simpl.
    f_equal. rewrite <- (Z.add_0_r (slen (root +:+ "_processed"))).
    rewrite from_append by lia. apply from_0.
  - rewrite append_empty_r.
    assert (Hdot' : rfind "." (base +:+ "_processed") = dot).
    { unfold rfind, dot. now apply rfind_from_append_absent. }
    rewrite Hdot'.
    destruct (Z.leb_spec 0 dot) as [Hdot|Hdot]; simpl; [|reflexivity].
    simpl in Hsplit. apply negb_false_iff in Hsplit.
    destruct (rfind_from_range "." base 0) as [Hr|Hr]; [lia|..];
      fold (rfind "." base) in Hr; fold dot in Hr; [lia|].
    rewrite upto_append_le by lia. now rewrite Hsplit.
Qed.

Lemma basename_slashfree s : occurs "/" s = false → basename s = s.
Proof.
  intros Hs. unfold basename, rfind. rewrite (rfind_from_absent _ _ _ Hs).
  apply from_0.
Qed.

(** The base name of a path that ends with a separator and a name is that
    name. *)
Lemma basename_join d name :
  occurs "/" name = false → basename (d +:+ String "/" name) = name.
Proof.
  intros Hname. unfold basename, rfind.
  rewrite rfind_from_append_at by (lia || assumption).
  replace (0 + slen d + 1) with (slen d + 1) by lia.
  rewrite from_append by lia. rewrite (from_cons 0) by lia. apply from_0.
Qed.

Lemma endswith_slash_split a : endswith_slash a = true → ∃ d, a = d +:+ "/".
Proof.
  induction a as [|c a IH]; [discriminate|]. simpl.
  destruct a as [|c' a'].
  - intros Hc. apply Ascii.eqb_eq in Hc. subst c. now exists "".
  - intros Hend. destruct (IH Hend) as (d & Hd). exists (String c d).
    now rewrite append_cons, <- Hd.
Qed.

(** X11: the output path depends on the file name of the input only: two
    inputs with the same name in different directories are written to the
    same output file. *)
Theorem same_name_same_output out_dir d1 d2 name :
  occurs "/" name = false →
  output_path out_dir (d1 +:+ "/" +:+ name) = output_path out_dir name
  ∧ output_path out_dir (d1 +:+ "/" +:+ name)
    = output_path out_dir (d2 +:+ "/" +:+ name).
Proof.
  intros Hname.
  assert (Hbase : ∀ d, output_path out_dir (d +:+ "/" +:+ name)
                       = output_path out_dir name).
  { intros d. unfold output_path.
    change (d +:+ "/" +:+ name) with (d +:+ String "/" name).
    now rewrite (basename_join d name Hname), (basename_slashfree name Hname). }
  split; [apply Hbase|]. now rewrite !Hbase.
Qed.

Lemma same_name_same_output_witness :
  output_path "out" ("monday" +:+ "/" +:+ "lesson.mp4") = "out/lesson_processed.mp4"
  ∧ output_path "out" ("monday" +:+ "/" +:+ "lesson.mp4")
    = output_path "out" ("friday" +:+ "/" +:+ "lesson.mp4").
Proof.
  split.
  - rewrite (proj1 (same_name_same_output "out" "monday" "friday" "lesson.mp4" eq_refl)).
    vm_compute. reflexivity.
  - exact (proj2 (same_name_same_output "out" "monday" "friday" "lesson.mp4" eq_refl)).
Defined.

(** The base name of the output path is the name given to the file. *)
Lemma basename_output_path out_dir video_path :
  basename (output_path out_dir video_path)
  = (splitext (basename video_path)).1 +:+ "_processed"
    +:+ (splitext (basename video_path)).2.
Proof.
  destruct (output_path_in_dir out_dir video_path) as [Hname Hpath].
  cbv zeta in Hname, Hpath. rewrite Hpath.
  set (name := (splitext (basename video_path)).1 +:+ "_processed"
               +:+ (splitext (basename video_path)).2) in *.
  destruct (Z.eqb_spec (slen out_dir) 0) as [Hlen|Hlen]; simpl.
  - assert (out_dir = "") as ->.
    { destruct out_dir; [reflexivity|]. rewrite slen_cons in Hlen.
      pose proof (slen_nonneg out_dir). lia. }
    now apply basename_slashfree.
  - destruct (endswith_slash out_dir) eqn:Hend.
    + destruct (endswith_slash_split _ Hend) as (d & ->).
      rewrite append_assoc_s. change ("/" +:+ name) with (String "/" name).
      now apply basename_join.
    + change (out_dir +:+ "/" +:+ name) with (out_dir +:+ String "/" name).
      now apply basename_join.
Qed.

(** X12: the name of the output file splits back into the root of the
    source file name followed by ["_processed"], and the extension of the
    source file name: the output keeps the extension of its input, also
    when that extension is empty. *)
Theorem output_keeps_extension out_dir video_path :
  splitext (basename (output_path out_dir video_path))
  = ((splitext (basename video_path)).1 +:+ "_processed",
     (splitext (basename video_path)).2).
Proof.
  rewrite basename_output_path.
  apply splitext_processed, basename_no_slash.
Qed.

(** ** The window and the worker *)

(** A loop over the files ends with the interruption message or with
    progress 100 and the completion signal. *)
Lemma process_loop_ends w p out_dir stop_at total idx files :
  ∃ evs,
    process_loop w p out_dir stop_at total idx files
    = evs ++ [error_occurred MsgUserInterrupt]
    ∨ process_loop w p out_dir stop_at total idx files
      = evs ++ [progress_updated 100; processing_finished (MsgAllDone total)].
Proof.
  revert idx. induction files as [|video_path files IH]; intros idx; simpl.
  - exists []. now right.
  - destruct (stopped stop_at idx); [exists []; now left|].
    destruct (IH (S idx)) as (evs & [->| ->]);
      exists (process_item w p out_dir (Z.of_nat idx) total video_path ++ evs);
      rewrite <- !app_assoc; [left|right]; reflexivity.
Qed.

Lemma run_export_ends w p stop_at :
  preview_only p = false → video_files p ≠ [] → truthy (output_dir p) = true →
  ∃ evs,
    run w p stop_at = evs ++ [error_occurred MsgUserInterrupt]
    ∨ run w p stop_at
      = evs ++ [progress_updated 100;
                processing_finished (MsgAllDone (Z.of_nat (length (video_files p))))].
Proof.
  intros Hmode Hfiles Hdir. unfold run, process_videos. rewrite Hmode, Hdir.
  destruct (video_files p) as [|video_path rest] eqn:E; [done|].
  apply process_loop_ends.
Qed.

Lemma not_missing_present w path :
  App.image_missing w path = false → present w path = truthy path.
Proof.
  unfold App.image_missing, present. destruct (truthy path); [|reflexivity].
  simpl. now intros ->%negb_false_iff.
Qed.

(** X13: when [export_videos] starts a worker it has shown no warning, and
    the job it starts has a file list that is not empty, an output
    directory, and overlays whose paths are empty or name existing files;
    run in the same world, that job never stops on an input error: it ends
    with the interruption message or with progress 100 and the completion
    signal for all its files. *)
Theorem export_starts_a_valid_job w app proc :
  App.Start proc ∈ App.export_videos w app →
  App.export_videos w app
  = [App.ExportBtnEnabled false; App.ProgressBarValue 0; App.Start proc;
     App.LogExporting (length (video_files proc))]
  ∧ video_files proc ≠ [] ∧ truthy (output_dir proc) = true
  ∧ preview_only proc = false
  ∧ present w (header_img1_path proc) = truthy (header_img1_path proc)
  ∧ present w (header_img2_path proc) = truthy (header_img2_path proc)
  ∧ ∀ stop_at, ∃ evs,
      run w proc stop_at = evs ++ [error_occurred MsgUserInterrupt]
      ∨ run w proc stop_at
        = evs ++ [progress_updated 100;
                  processing_finished
                    (MsgAllDone (Z.of_nat (length (video_files proc))))].
Proof.
  unfold App.export_videos.
  destruct (App.video_files app) as [|video_path rest] eqn:Hfiles.
  { intros Hin. apply list_elem_of_singleton in Hin. discriminate Hin. }
  destruct (truthy (App.output_dir app)) eqn:Hdir; simpl.
  2:{ intros Hin. apply list_elem_of_singleton in Hin. discriminate Hin. }
  destruct (App.image_missing w (App.header_img1_path app)) eqn:Himg1.
  { intros Hin. apply list_elem_of_singleton in Hin. discriminate Hin. }
  destruct (App.image_missing w (App.header_img2_path app)) eqn:Himg2.
  { intros Hin. apply list_elem_of_singleton in Hin. discriminate Hin. }
  intros Hin.
  repeat (apply elem_of_cons in Hin as [Hin|Hin]; [try discriminate Hin|]);
    [|inversion Hin].
  injection Hin as ->. simpl.
  split; [reflexivity|]. split; [discriminate|]. split; [exact Hdir|].
  split; [reflexivity|].
  split; [now apply not_missing_present|]. split; [now apply not_missing_present|].
  intros stop_at. apply run_export_ends; [reflexivity|discriminate|exact Hdir].
Qed.

Lemma export_starts_a_valid_job_witness :
  let app := {| App.video_files := ["a.mp4"; "b.avi"];
                App.header_img1_path := Some "logo.png";
                App.header_img2_path := Some "";
                App.output_dir := Some "out";
                App.offset_spin := 100;
                App.img1_x_spin := 0; App.img1_y_spin := 0;
                App.img1_scale_spin := 0.5;
                App.img2_x_spin := 0; App.img2_y_spin := 30;
                App.img2_scale_spin := 0.5 |} in
  let proc := make_processor ["a.mp4"; "b.avi"] 100 (Some "logo.png") 0 0 0.5
                (Some "") 0 30 0.5 false (Some "out") in
  App.Start proc ∈ App.export_videos Demo.world app
  ∧ present Demo.world (header_img1_path proc) = true
  ∧ present Demo.world (header_img2_path proc) = false.
Proof.
  intros app proc.
  assert (Hin : App.Start proc ∈ App.export_videos Demo.world app).
  { assert (Hrun : App.export_videos Demo.world app
                   = [App.ExportBtnEnabled false; App.ProgressBarValue 0;
                      App.Start proc; App.LogExporting 2])
      by (vm_compute; reflexivity).
    rewrite Hrun, !elem_of_cons. auto. }
  destruct (export_starts_a_valid_job Demo.world app proc Hin)
    as (_ & _ & _ & _ & Hp1 & Hp2 & _).
  split; [exact Hin|]. split; [exact Hp1|exact Hp2].
Defined.

(** X14: when [update_preview] starts a worker, a worker that was running
    has been asked to stop and waited for before, no warning is shown, and
    the job started is a preview job with a file list that is not empty
    and overlays whose paths are empty or name existing files. *)
Theorem update_preview_restarts_cleanly w app running proc :
  App.Start proc ∈ App.update_preview w app running →
  App.update_preview w app running
  = (if running then [App.StopProcessor; App.WaitProcessor] else [])
    ++ [App.PreviewLabelText; App.ClearPreviewImage; App.Start proc; App.LogPreviewing]
  ∧ preview_only proc = true ∧ video_files proc ≠ [] ∧ output_dir proc = None
  ∧ present w (header_img1_path proc) = truthy (header_img1_path proc)
  ∧ present w (header_img2_path proc) = truthy (header_img2_path proc)
  ∧ ∀ stop_at, run w proc stop_at = process_preview w proc.
Proof.
  unfold App.update_preview, App.generate_preview. intros Hin.
  apply elem_of_app in Hin as [Hin|Hin].
  { destruct running; [|inversion Hin].
    repeat (apply elem_of_cons in Hin as [Hin|Hin]; [discriminate Hin|]).
    inversion Hin. }
  destruct (App.video_files app) as [|video_path rest] eqn:Hfiles; [inversion Hin|].
  destruct (App.image_missing w (App.header_img1_path app)) eqn:Himg1.
  { apply list_elem_of_singleton in Hin. discriminate Hin. }
  destruct (App.image_missing w (App.header_img2_path app)) eqn:Himg2.
  { apply list_elem_of_singleton in Hin. discriminate Hin. }
  repeat (apply elem_of_cons in Hin as [Hin|Hin]; [try discriminate Hin|]);
    [|inversion Hin].
  injection Hin as ->. simpl.
  split; [reflexivity|]. split; [reflexivity|]. split; [discriminate|].
  split; [reflexivity|].
  split; [now apply not_missing_present|]. split; [now apply not_missing_present|].
  reflexivity.
Qed.

Lemma update_preview_restarts_cleanly_witness :
  let app := {| App.video_files := ["a.mp4"];
                App.header_img1_path := Some "logo.png";
                App.header_img2_path := None;
                App.output_dir := None;
                App.offset_spin := 100;
                App.img1_x_spin := 0; App.img1_y_spin := 0;
                App.img1_scale_spin := 0.5;
                App.img2_x_spin := 0; App.img2_y_spin := 30;
                App.img2_scale_spin := 0.5 |} in
  let proc := make_processor ["a.mp4"] 100 (Some "logo.png") 0 0 0.5
                None 0 30 0.5 true None in
  App.update_preview Demo.world app true
  = [App.StopProcessor; App.WaitProcessor; App.PreviewLabelText;
     App.ClearPreviewImage; App.Start proc; App.LogPreviewing].
Proof.
  intros app proc.
  assert (Hin : App.Start proc ∈ App.update_preview Demo.world app true).
  { assert (Hrun : App.update_preview Demo.world app true
                   = [App.StopProcessor; App.WaitProcessor; App.PreviewLabelText;
                      App.ClearPreviewImage; App.Start proc; App.LogPreviewing])
      by (vm_compute; reflexivity).
    rewrite Hrun, !elem_of_cons. auto 10. }
  exact (proj1 (update_preview_restarts_cleanly Demo.world app true proc Hin)).
Defined.
